(** * AstraNote front end: API client, auth store, password rule, schema

    A shallow embedding of the TypeScript client ([utils/api.ts],
    [store/authStore.ts], [types/index.ts]) and of the SQL initialisation
    script, with the properties the design document states about them. The
    document and query managers of the back end are not among the sources;
    where a property is about them they are modelled from the design
    document, and marked so. *)

From Stdlib Require Import ZArith Lia Bool List Ascii String.
From stdpp Require Import base option list gmap strings pretty.

Local Open Scope string_scope.

(** ** Regular expressions, as far as [validatePassword] uses them *)

Module Regex.

(** The fragment of ECMAScript patterns that occurs in the source: character
    classes (also [\d] and [.]), concatenation, the greedy star, the positive
    lookahead [(?=r)] and the two anchors. *)
Inductive re : Type :=
| Class (f : ascii → bool)
| Cat (r1 r2 : re)
| Star (r : re)
| Look (r : re)
| Bos
| Eos
| Nil.

(** A cursor is the index reached in the input and the input still ahead. *)
Definition cursor : Type := nat * list ascii.

Definition advanced (c c' : cursor) : bool := negb (c'.1 =? c.1)%nat.

(** Greedy iteration: the cursors reached by more rounds come first, the
    cursor of zero rounds last. A round that consumes nothing is dropped, as
    in the ECMAScript semantics of [*]. *)
Fixpoint iter_star (step : cursor → list cursor) (fuel : nat) (c : cursor)
  : list cursor :=
  match fuel with
  | O => [c]
  | S fuel' =>
      flat_map (iter_star step fuel') (List.filter (advanced c) (step c))
      ++ [c]
  end.

(** All cursors at which a match of [r] started at [c] can end, in the order
    a backtracking matcher tries them. *)
Fixpoint ends (r : re) (c : cursor) : list cursor :=
  match r with
  | Class f =>
      match c.2 with
      | a :: s => if f a then [(S c.1, s)] else []
      | [] => []
      end
  | Cat r1 r2 => flat_map (ends r2) (ends r1 c)
  | Star r' => iter_star (ends r') (length c.2) c
  | Look r' => match ends r' c with [] => [] | _ :: _ => [c] end
  | Bos => if (c.1 =? 0)%nat then [c] else []
  | Eos => match c.2 with [] => [c] | _ :: _ => [] end
  | Nil => [c]
  end.

(** [r{n}] and [r{n,}] *)
Fixpoint times (n : nat) (r : re) : re :=
  match n with
  | O => Nil
  | S n' => Cat r (times n' r)
  end.

Definition at_least (n : nat) (r : re) : re := Cat (times n r) (Star r).

Definition matches_at (r : re) (s : list ascii) (i : nat) : bool :=
  match ends r (i, drop i s) with
  | [] => false
  | _ :: _ => true
  end.

(** [RegExp.prototype.test] without the [g] flag: a match is looked for at
    every start index, from the left. *)
Definition test (r : re) (s : string) : bool :=
  let l := list_ascii_of_string s in
  existsb (matches_at r l) (seq 0 (S (length l))).

Definition in_range (lo hi a : ascii) : bool :=
  (N_of_ascii lo <=? N_of_ascii a)%N && (N_of_ascii a <=? N_of_ascii hi)%N.

Definition one_of (cs : string) (a : ascii) : bool :=
  existsb (Ascii.eqb a) (list_ascii_of_string cs).

(** [.] without the [s] flag does not match a line terminator. *)
Definition dot (a : ascii) : bool :=
  negb (Ascii.eqb a "010" || Ascii.eqb a "013").

(** [\d] *)
Definition digit : ascii → bool := in_range "0" "9".

End Regex.

(** ** [validatePassword] *)

Module Password.
Import Regex.

Definition lower : ascii → bool := in_range "a" "z".
Definition upper : ascii → bool := in_range "A" "Z".

(** [[a-zA-Z\d@$!%*?&]] *)
Definition allowed (a : ascii) : bool :=
  lower a || upper a || digit a || one_of "@$!%*?&" a.

Definition somewhere (f : ascii → bool) : re :=
  Look (Cat (Star (Class dot)) (Class f)).

(** [/^(?=.*[a-z])(?=.*[A-Z])(?=.*\d)[a-zA-Z\d@$!%*?&]{8,}$/]

    A JavaScript string is a sequence of UTF-16 code units, a [string] here
    a sequence of bytes. The class admits ASCII characters only, so a
    password with a character outside ASCII fails on both sides and one
    without is the same sequence on both. *)
Definition passwordRegex : re :=
  Cat Bos
    (Cat (somewhere lower)
       (Cat (somewhere upper)
          (Cat (somewhere digit)
             (Cat (at_least 8 (Class allowed)) Eos)))).

Definition validatePassword (password : string) : bool :=
  test passwordRegex password.

(** The rule in words, character by character, to compare with the pattern. *)
Definition lowercase_letters : list ascii :=
  list_ascii_of_string "abcdefghijklmnopqrstuvwxyz".
Definition uppercase_letters : list ascii :=
  list_ascii_of_string "ABCDEFGHIJKLMNOPQRSTUVWXYZ".
Definition decimal_digits : list ascii :=
  list_ascii_of_string "0123456789".
Definition special_characters : list ascii :=
  list_ascii_of_string "@$!%*?&".

Definition permitted_character (a : ascii) : Prop :=
  In a (lowercase_letters ++ uppercase_letters ++ decimal_digits
        ++ special_characters).

Definition password_rule (password : string) : Prop :=
  let l := list_ascii_of_string password in
  (8 ≤ length l)%nat
  ∧ (∀ a, In a l → permitted_character a)
  ∧ (∃ a, In a l ∧ In a lowercase_letters)
  ∧ (∃ a, In a l ∧ In a uppercase_letters)
  ∧ (∃ a, In a l ∧ In a decimal_digits).

End Password.

(** ** The other utility functions of [utils/api.ts]

    Here a [string] is read as the sequence of the UTF-16 code units of a
    JavaScript string whose code units are all below 256, one [ascii] per
    code unit; [length] is then [String.prototype.length]. *)

Module Utils.
Import Regex.

(** [\s], and the characters [trim] strips: WhiteSpace and LineTerminator.
    Below 256 these are TAB, LF, VT, FF, CR, SP and NBSP. *)
Definition whitespace (a : ascii) : bool :=
  existsb (N.eqb (N_of_ascii a)) [9; 10; 11; 12; 13; 32; 160]%N.

(** [[^\s@]] *)
Definition plain (a : ascii) : bool :=
  negb (whitespace a || Ascii.eqb a "@").

(** A pattern character that stands for itself. *)
Definition lit (c : ascii) : re := Class (Ascii.eqb c).

(** [/^[^\s@]+@[^\s@]+\.[^\s@]+$/] *)
Definition emailRegex : re :=
  Cat Bos
    (Cat (at_least 1 (Class plain))
       (Cat (lit "@")
          (Cat (at_least 1 (Class plain))
             (Cat (lit ".")
                (Cat (at_least 1 (Class plain)) Eos))))).

Definition validateEmail (email : string) : bool := test emailRegex email.

(** The rule in words: no white space, exactly one [@], which is not the
    first character, and somewhere after it a dot that neither follows the
    [@] directly nor ends the address. *)
Definition email_rule (email : string) : Prop :=
  let l := list_ascii_of_string email in
  (∀ a, In a l → whitespace a = false)
  ∧ ∃ i j,
      (∀ k, l !! k = Some "@"%char ↔ k = i)
      ∧ (0 < i)%nat
      ∧ l !! j = Some "."%char
      ∧ (i + 1 < j)%nat
      ∧ (j + 1 < length l)%nat.

Fixpoint trim_start (l : list ascii) : list ascii :=
  match l with
  | a :: l' => if whitespace a then trim_start l' else l
  | [] => []
  end.

Definition trim_end (l : list ascii) : list ascii :=
  rev (trim_start (rev l)).

(** [String.prototype.trim] *)
Definition trim (l : list ascii) : list ascii := trim_end (trim_start l).

(** [truncateText], for an integral [maxLength]. [substring(0, n)] reads a
    negative [n] as 0 and stops at the end of the string. *)
Definition truncateText (text : string) (maxLength : Z) : string :=
  let l := list_ascii_of_string text in
  if (Z.of_nat (length l) <=? maxLength)%Z then text
  else string_of_list_ascii (trim (take (Z.to_nat maxLength) l)) +:+ "...".

(** [formatRelativeTime]. [getTime] stands for [new Date(s).getTime()],
    [None] for the [NaN] of a string that is no date; [formatDate] is the
    locale-dependent function of that name; [now] is [new Date().getTime()].
    The quotients are exact in floating point for times a [Date] can hold,
    and every comparison with [NaN] is false. *)
Definition formatRelativeTime (getTime : string → option Z)
    (formatDate : string → string) (now : Z) (dateString : string)
  : string :=
  match getTime dateString with
  | Some t =>
      let diffInSeconds := ((now - t) `div` 1000)%Z in
      if (diffInSeconds <? 60)%Z then "Just now"
      else if (diffInSeconds <? 3600)%Z
      then pretty (diffInSeconds `div` 60)%Z +:+ " minutes ago"
      else if (diffInSeconds <? 86400)%Z
      then pretty (diffInSeconds `div` 3600)%Z +:+ " hours ago"
      else if (diffInSeconds <? 2592000)%Z
      then pretty (diffInSeconds `div` 86400)%Z +:+ " days ago"
      else formatDate dateString
  | None => formatDate dateString
  end.

End Utils.

(** ** The values the client passes around *)

Module Js.

(** A JSON object as the client reads it: string-valued fields. An absent
    field reads as [undefined], here [None]. *)
Abbreviation Json := (gmap string string).

(** Truthiness of a value that is a string, [null] or [undefined]. *)
Definition truthy (v : option string) : bool :=
  match v with
  | Some s => negb (String.eqb s "")
  | None => false
  end.

(** [String(v)], which is what [localStorage.setItem] stores. *)
Definition to_string (v : option string) : string :=
  match v with
  | Some s => s
  | None => "undefined"
  end.

(** [a || b] on such values *)
Definition or_else (v : option string) (d : string) : string :=
  match v with
  | Some s => if String.eqb s "" then d else s
  | None => d
  end.

End Js.

(** ** [ApiClient] *)

Module Api.
Import Js.

Record Config : Type := mkConfig {
  url : string;
  method : string;
  body : Json;
  headers : gmap string string;
  skipAuth : bool;
  skipErrorHandling : bool
}.

(** A response as axios hands it over. [data] is the parsed body: an
    object, or [None] for a body that parsed to [null], on which a property
    read throws. (A body that is text or a number has none of the fields
    read here, like the empty object.) *)
Record Response : Type := mkResponse {
  status : Z;
  data : option Json
}.

(** What comes back for a request that went out: a response with a status,
    or nothing (network failure, timeout). *)
Inductive Reply : Type :=
| Replied (response : Response)
| NoReply.

Inductive Error : Type :=
| AxiosError (config : Config) (response : option Response)
| TypeError (message : string)
| ReferenceError (message : string).

(** How a promise of a response settles. [Fulfilled None] is a promise
    resolved with [undefined]. *)
Inductive Settled : Type :=
| Fulfilled (response : option Response)
| Rejected (error : Error).

(** The browser globals the client touches; absent on the server side
    ([typeof window === 'undefined']). *)
Record Browser : Type := mkBrowser {
  localStorage : gmap string string;
  href : string
}.

(** The singleton client and its surroundings: the private [authToken]
    field, the browser, the toasts shown and the requests handed to the
    network so far, oldest first. *)
Record World : Type := mkWorld {
  authToken : option string;
  window : option Browser;
  toasts : list string;
  sent : list Config
}.

(** [Date.now()] and [Math.random().toString(36).substr(2, 9)] as read at
    one call of [generateCorrelationId]. *)
Record Entropy : Type := mkEntropy {
  now : N;
  random : string
}.

(** What the client does not control: the reply to the [n]-th request and
    the clock and random source at the [n]-th request. *)
Record Env : Type := mkEnv {
  server : nat → Config → Reply;
  entropy : nat → Entropy
}.

Definition with_authToken (t : option string) (w : World) : World :=
  mkWorld t (window w) (toasts w) (sent w).

Definition with_storage (f : gmap string string → gmap string string)
    (w : World) : World :=
  mkWorld (authToken w)
    (match window w with
     | Some b => Some (mkBrowser (f (localStorage b)) (href b))
     | None => None
     end)
    (toasts w) (sent w).

Definition toast_error (message : string) (w : World) : World :=
  mkWorld (authToken w) (window w) (toasts w ++ [message]) (sent w).

Definition record_sent (config : Config) (w : World) : World :=
  mkWorld (authToken w) (window w) (toasts w) (sent w ++ [config]).

Definition set_header (k v : string) (config : Config) : Config :=
  mkConfig (url config) (method config) (body config)
    (<[k := v]> (headers config)) (skipAuth config)
    (skipErrorHandling config).

Definition getItem (k : string) (w : World) : option string :=
  match window w with
  | Some b => localStorage b !! k
  | None => None
  end.

Definition generateCorrelationId (e : Entropy) : string :=
  pretty (now e) +:+ "-" +:+ random e.

(** The request interceptor. *)
Definition requestInterceptor (w : World) (e : Entropy) (config : Config)
  : Config :=
  let config1 :=
    match authToken w with
    | Some t =>
        if truthy (Some t) && negb (skipAuth config)
        then set_header "Authorization" ("Bearer " +:+ t) config
        else config
    | None => config
    end in
  set_header "X-Correlation-ID" (generateCorrelationId e) config1.

(** Run by the constructor: in a browser the token is read back from
    [localStorage]. *)
Definition loadAuthToken (w : World) : World :=
  match window w with
  | Some b => with_authToken (localStorage b !! "access_token") w
  | None => w
  end.

Definition saveAuthToken (token : option string) (w : World) : World :=
  with_storage (<["access_token" := to_string token]>)
    (with_authToken token w).

Definition clearAuthToken (w : World) : World :=
  with_storage (λ m, delete "refresh_token" (delete "access_token" m))
    (with_authToken None w).

(** [window.location.href = '/auth/login']; without a window the
    assignment throws. *)
Definition go_to_login (w : World) : World * option Error :=
  match window w with
  | Some b =>
      (mkWorld (authToken w) (Some (mkBrowser (localStorage b) "/auth/login"))
         (toasts w) (sent w), None)
  | None => (w, Some (ReferenceError "window is not defined"))
  end.

(** The [switch] of [handleApiError]: the text of the toast for a status. *)
Definition status_message (s : Z) (message : string) : string :=
  if (s =? 400)%Z then "Validation Error: " +:+ message
  else if (s =? 401)%Z then "Authentication required"
  else if (s =? 403)%Z then "Permission denied"
  else if (s =? 404)%Z then "Resource not found"
  else if (s =? 429)%Z then "Too many requests. Please try again later."
  else if (s =? 500)%Z then "Server error. Please try again later."
  else message.

(** [handleApiError], as far as it shows: the toast, and the error it
    throws. [apiError.detail] is read before anything is shown, so on a
    [null] body the read throws and no toast appears. What the function
    writes to the console is left out. *)
Definition handleApiError (w : World) (response : option Response)
  : World * option Error :=
  match response with
  | Some r =>
      match data r with
      | Some apiError =>
          let message :=
            or_else (apiError !! "detail") "An unexpected error occurred" in
          (toast_error (status_message (status r) message) w, None)
      | None =>
          (w, Some (TypeError
                      "Cannot read properties of null (reading 'detail')"))
      end
  | None =>
      (toast_error "Network error. Please check your connection." w, None)
  end.

Definition is_unauthorized (response : option Response) : bool :=
  match response with
  | Some r => (status r =? 401)%Z
  | None => false
  end.

(** How the interceptor's promise settles once the handler it awaited is
    through: the interceptor then returns nothing, so the promise is
    fulfilled with [undefined], unless the handler threw. *)
Definition handler_outcome (thrown : option Error) : Settled :=
  match thrown with
  | None => Fulfilled None
  | Some e => Rejected e
  end.

(** The rejection branch of the response interceptor. [handle] is the
    token-expiration handler; it returns the error it threw, if any. An
    error thrown by [handleApiError] takes the place of the axios error the
    promise would be rejected with. *)
Definition responseRejected (handle : World → World * option Error)
    (w : World) (config : Config) (response : option Response)
  : World * Settled :=
  if is_unauthorized response && negb (skipAuth config)
  then
    let (w', thrown) := handle w in
    (w', handler_outcome thrown)
  else if negb (skipErrorHandling config)
  then
    match handleApiError w response with
    | (w', Some e) => (w', Rejected e)
    | (w', None) => (w', Rejected (AxiosError config response))
    end
  else (w, Rejected (AxiosError config response)).

(** A request in two halves, as the event loop runs it: [dispatch] up to the
    hand-over to the network, [settle] from the arrival of the reply. *)
Definition dispatch (env : Env) (w : World) (config : Config)
  : World * Config :=
  let config' := requestInterceptor w (entropy env (length (sent w))) config in
  (record_sent config' w, config').

(** axios' default [validateStatus] *)
Definition validateStatus (s : Z) : bool := (200 <=? s)%Z && (s <? 300)%Z.

Definition settle (handle : World → World * option Error) (w : World)
    (config : Config) (reply : Reply) : World * Settled :=
  match reply with
  | Replied r =>
      if validateStatus (status r) then (w, Fulfilled (Some r))
      else responseRejected handle w config (Some r)
  | NoReply => responseRejected handle w config None
  end.

(** The [response] of the error that a reply which is not accepted is
    turned into. *)
Definition error_response (reply : Reply) : option Response :=
  match reply with
  | Replied r => Some r
  | NoReply => None
  end.

(** Whether a reply makes the request's promise resolve. *)
Definition accepted (reply : Reply) : bool :=
  match reply with
  | Replied r => validateStatus (status r)
  | NoReply => false
  end.

Definition request_with (handle : World → World * option Error)
    (env : Env) (w : World) (config : Config) : World * Settled :=
  let n := length (sent w) in
  let (w1, config') := dispatch env w config in
  settle handle w1 config' (server env n config').

(** The instance defaults of [axios.create]; a request's own headers win. *)
Definition default_headers : gmap string string :=
  {[ "Content-Type" := "application/json" ]}.

Definition refreshConfig (refreshToken : string) : Config :=
  mkConfig "/api/v1/auth/refresh" "post"
    {[ "refresh_token" := refreshToken ]} default_headers true false.

(** The [catch] block of [handleTokenExpiration]. *)
Definition session_expired (w : World) : World * option Error :=
  go_to_login
    (toast_error "Session expired. Please log in again." (clearAuthToken w)).

(** [handleTokenExpiration] up to its [await]: either it has finished (no
    usable refresh token), or it has a refresh call to make. *)
Inductive Suspended : Type :=
| Finished (w : World) (thrown : option Error)
| Awaiting (w : World) (config : Config).

(** The branch taken when [!refreshToken] holds. The redirect sits inside
    the [try], so a throw there lands in the [catch] block. *)
Definition without_refresh_token (w : World) : Suspended :=
  match go_to_login (clearAuthToken w) with
  | (w', None) => Finished w' None
  | (w', Some _) => let (w'', thrown) := session_expired w' in
                    Finished w'' thrown
  end.

Definition handleTokenExpiration_begin (w : World) : Suspended :=
  match getItem "refresh_token" w with
  | Some refreshToken =>
      if truthy (Some refreshToken)
      then Awaiting w (refreshConfig refreshToken)
      else without_refresh_token w
  | None => without_refresh_token w
  end.

(** [handleTokenExpiration] from the settling of the refresh call on.
    Destructuring a [null] body throws, inside the [try]. *)
Definition handleTokenExpiration_resume (w : World) (r : Settled)
  : World * option Error :=
  match r with
  | Fulfilled (Some response) =>
      match data response with
      | Some tokens =>
          let access_token := tokens !! "access_token" in
          let newRefreshToken := tokens !! "refresh_token" in
          (with_storage (<["refresh_token" := to_string newRefreshToken]>)
             (saveAuthToken access_token w), None)
      | None => session_expired w
      end
  | Fulfilled None => session_expired w
  | Rejected _ => session_expired w
  end.

(** The handler a request made with [skipAuth] would fall back on; the
    interceptor never calls it for such a request (see
    [settle_skipAuth_ignores_handler]). *)
Definition unreachable_handler (w : World) : World * option Error :=
  (w, None).

Definition handleTokenExpiration (env : Env) (w : World)
  : World * option Error :=
  match handleTokenExpiration_begin w with
  | Finished w' thrown => (w', thrown)
  | Awaiting w' config =>
      let (w'', r) := request_with unreachable_handler env w' config in
      handleTokenExpiration_resume w'' r
  end.

(** [this.client.request] with both interceptors installed. *)
Definition request (env : Env) (w : World) (config : Config)
  : World * Settled :=
  request_with (handleTokenExpiration env) env w config.

(** The public methods return [response.data], which may be [null]; on a
    promise fulfilled with [undefined] that property access throws. *)
Inductive Result (A : Type) : Type :=
| Returned (a : A)
| Threw (e : Error).
Arguments Returned {A} a.
Arguments Threw {A} e.

Definition response_data (r : Settled) : Result (option Json) :=
  match r with
  | Fulfilled (Some response) => Returned (data response)
  | Fulfilled None =>
      Threw (TypeError "Cannot read properties of undefined (reading 'data')")
  | Rejected e => Threw e
  end.

Definition merge_config (m u : string) (b : Json) (config : Config)
  : Config :=
  mkConfig u m b (headers config ∪ default_headers) (skipAuth config)
    (skipErrorHandling config).

(** A call made without a config argument. *)
Definition no_config : Config := mkConfig "" "" ∅ ∅ false false.

Definition get (env : Env) (w : World) (u : string) (config : Config)
  : World * Result (option Json) :=
  let (w', r) := request env w (merge_config "get" u ∅ config) in
  (w', response_data r).

Definition post (env : Env) (w : World) (u : string) (b : Json)
    (config : Config) : World * Result (option Json) :=
  let (w', r) := request env w (merge_config "post" u b config) in
  (w', response_data r).

Definition setAuthToken (token : option string) (w : World) : World :=
  saveAuthToken token w.

Definition clearAuth (w : World) : World := clearAuthToken w.

(** The configs that leave the request interceptor when [configs] are
    dispatched one after the other. *)
Fixpoint dispatch_all (env : Env) (w : World) (configs : list Config)
  : list Config :=
  match configs with
  | [] => []
  | config :: rest =>
      let (w', config') := dispatch env w config in
      config' :: dispatch_all env w' rest
  end.

(** What a cleared session looks like once the browser has been sent to the
    login page. *)
Record signed_out (w : World) : Prop := {
  so_token : authToken w = None;
  so_access : getItem "access_token" w = None;
  so_refresh : getItem "refresh_token" w = None;
  so_login : href <$> window w = Some "/auth/login"
}.

(** *** Several requests in flight

    The event loop interleaves handlers at their [await]: a 401 reply runs
    the response interceptor and the handler up to the refresh call; the
    reply to a refresh call runs the rest of that handler. *)
Record Loop : Type := mkLoop {
  world : World;
  refreshing : list Config;
  delivered : list Settled
}.

(** [Failed config response]: the reply to an ordinary request [config]
    arrives with an error status (or no reply at all).
    [RefreshSettled i reply]: the reply to the [i]-th refresh call still in
    flight arrives. *)
Inductive Event : Type :=
| Failed (config : Config) (response : option Response)
| RefreshSettled (i : nat) (reply : Reply).

Definition step (env : Env) (l : Loop) (ev : Event) : Loop :=
  match ev with
  | Failed config response =>
      if is_unauthorized response && negb (skipAuth config)
      then
        match handleTokenExpiration_begin (world l) with
        | Finished w thrown =>
            mkLoop w (refreshing l) (delivered l ++ [handler_outcome thrown])
        | Awaiting w rc =>
            let (w', rc') := dispatch env w rc in
            mkLoop w' (refreshing l ++ [rc']) (delivered l)
        end
      else
        let (w, r) := responseRejected unreachable_handler (world l)
                        config response in
        mkLoop w (refreshing l) (delivered l ++ [r])
  | RefreshSettled i reply =>
      match refreshing l !! i with
      | Some rc =>
          let (w, r) := settle unreachable_handler (world l) rc reply in
          let (w', thrown) := handleTokenExpiration_resume w r in
          mkLoop w' (delete i (refreshing l))
            (delivered l ++ [handler_outcome thrown])
      | None => l
      end
  end.

Definition run (env : Env) (l : Loop) (evs : list Event) : Loop :=
  fold_left (step env) evs l.

Definition is_refresh_call (config : Config) : bool :=
  String.eqb (url config) "/api/v1/auth/refresh".

Definition refresh_calls (w : World) : nat :=
  length (List.filter is_refresh_call (sent w)).

(** How many requests have gone out to [u]. *)
Definition sends_to (u : string) (w : World) : nat :=
  length (List.filter (λ c, String.eqb (url c) u) (sent w)).

(** [new ApiClient()]: the token starts as [null] and is then loaded. *)
Definition construct (b : option Browser) : World :=
  loadAuthToken (mkWorld None b [] []).


End Api.

(** ** The auth store *)

Module AuthStore.
Import Js Api.

(** [user] is [None] while it is [null]. *)
Record AuthState : Type := mkAuthState {
  user : option Json;
  token : option string;
  isAuthenticated : bool;
  isLoading : bool;
  error : option string
}.

Definition initial : AuthState := mkAuthState None None false false None.

Record UserLogin : Type := mkUserLogin {
  username : string;
  password : string
}.

(** [error.response?.data?.detail] *)
Definition response_detail (e : Error) : option string :=
  match e with
  | AxiosError _ (Some r) => data r ≫= (λ d, d !! "detail")
  | AxiosError _ None => None
  | TypeError _ => None
  | ReferenceError _ => None
  end.

(** A partial state, as passed to zustand's [set]: a field that is [None]
    is left as it is. *)
Record Patch : Type := mkPatch {
  set_user : option (option Json);
  set_token : option (option string);
  set_isAuthenticated : option bool;
  set_isLoading : option bool;
  set_error : option (option string)
}.

Definition set (p : Patch) (s : AuthState) : AuthState :=
  mkAuthState
    (default (user s) (set_user p))
    (default (token s) (set_token p))
    (default (isAuthenticated s) (set_isAuthenticated p))
    (default (isLoading s) (set_isLoading p))
    (default (error s) (set_error p)).

Definition errorMessage (e : Error) : string :=
  or_else (response_detail e) "Login failed".

(** The [catch] block of [login]. *)
Definition login_failed (e : Error) (s : AuthState) : AuthState :=
  set (mkPatch (Some None) (Some None) (Some false) (Some false)
         (Some (Some (errorMessage e)))) s.

Definition form_config : Config :=
  mkConfig "" "" ∅
    {[ "Content-Type" := "application/x-www-form-urlencoded" ]} false false.

(** [login]: the world and the store it leaves, and the error it throws.
    Reading [access_token] off a [null] token response throws inside the
    [try]. *)
Definition login (env : Env) (w : World) (s : AuthState)
    (credentials : UserLogin) : World * AuthState * option Error :=
  let s0 := set (mkPatch None None None (Some true) (Some None)) s in
  let formData : Json :=
    <["password" := password credentials]>
      {[ "username" := username credentials ]} in
  match post env w "/api/v1/auth/login" formData form_config with
  | (w1, Threw e) => (w1, login_failed e s0, Some e)
  | (w1, Returned None) =>
      let e :=
        TypeError
          "Cannot read properties of null (reading 'access_token')" in
      (w1, login_failed e s0, Some e)
  | (w1, Returned (Some tokenResponse)) =>
      let w2 := setAuthToken (tokenResponse !! "access_token") w1 in
      match get env w2 "/api/v1/auth/me" no_config with
      | (w3, Threw e) => (w3, login_failed e s0, Some e)
      | (w3, Returned u) =>
          let w4 :=
            with_storage
              (<["refresh_token" :=
                   to_string (tokenResponse !! "refresh_token")]>) w3 in
          (w4,
           set (mkPatch (Some u)
                  (Some (tokenResponse !! "access_token")) (Some true)
                  (Some false) (Some None)) s0,
           None)
      end
  end.

Definition signed_off : Patch :=
  mkPatch (Some None) (Some None) (Some false) (Some false) (Some None).

(** [logout] *)
Definition logout (w : World) (s : AuthState) : World * AuthState :=
  (with_storage (delete "refresh_token") (clearAuth w), set signed_off s).

(** [checkAuth]; it returns nothing and throws nothing. *)
Definition checkAuth (env : Env) (w : World) (s : AuthState)
  : World * AuthState :=
  if negb (truthy (token s))
  then (w, set (mkPatch (Some None) None (Some false) None None) s)
  else
    let s0 := set (mkPatch None None None (Some true) None) s in
    match get env w "/api/v1/auth/me" no_config with
    | (w1, Returned u) =>
        (w1,
         set (mkPatch (Some u) None (Some true) (Some false)
                (Some None)) s0)
    | (w1, Threw _) => logout w1 s0
    end.

(** [UserCreate] *)
Record UserCreate : Type := mkUserCreate {
  new_username : string;
  new_email : string;
  new_full_name : string;
  new_password : string;
  organization : option string;
  department : option string;
  bio : option string
}.

Definition with_field (k : string) (v : option string) (m : Json) : Json :=
  match v with
  | Some x => <[k := x]> m
  | None => m
  end.

(** The request body for [userData]: a field that is [undefined] is not
    sent. *)
Definition userData_json (u : UserCreate) : Json :=
  with_field "bio" (bio u)
    (with_field "department" (department u)
       (with_field "organization" (organization u)
          (<["password" := new_password u]>
             (<["full_name" := new_full_name u]>
                (<["email" := new_email u]>
                   {[ "username" := new_username u ]}))))).

(** The [catch] block of [register]. *)
Definition register_failed (e : Error) (s : AuthState) : AuthState :=
  set (mkPatch None None None (Some false)
         (Some (Some (or_else (response_detail e) "Registration failed"))))
    s.

(** [register]: registration, then [login] with the same credentials. *)
Definition register (env : Env) (w : World) (s : AuthState)
    (userData : UserCreate) : World * AuthState * option Error :=
  let s0 := set (mkPatch None None None (Some true) (Some None)) s in
  match post env w "/api/v1/auth/register" (userData_json userData)
          no_config with
  | (w1, Threw e) => (w1, register_failed e s0, Some e)
  | (w1, Returned _) =>
      match login env w1 s0
              (mkUserLogin (new_username userData) (new_password userData))
      with
      | (w2, s2, Some e) => (w2, register_failed e s2, Some e)
      | (w2, s2, None) => (w2, s2, None)
      end
  end.

(** [clearError] *)
Definition clearError (s : AuthState) : AuthState :=
  set (mkPatch None None None None (Some None)) s.

(** [updateUser]: the fields given replace those of the user, if there is
    one. *)
Definition updateUser (userData : Json) (s : AuthState) : AuthState :=
  match user s with
  | Some u => set (mkPatch (Some (Some (userData ∪ u))) None None None None) s
  | None => s
  end.

End AuthStore.

(** ** The [queries] table of the initialisation script *)

Module Schema.

(** SQL's three truth values; [None] is unknown. A comparison with NULL is
    unknown. *)
Definition sql_ge (a : option Z) (b : Z) : option bool :=
  (λ x, (b <=? x)%Z) <$> a.

Definition sql_le (a : option Z) (b : Z) : option bool :=
  (λ x, (x <=? b)%Z) <$> a.

Definition sql_and (p q : option bool) : option bool :=
  match p, q with
  | Some false, _ => Some false
  | _, Some false => Some false
  | Some true, Some true => Some true
  | _, _ => None
  end.

(** A CHECK constraint rejects a row only when it evaluates to false. *)
Definition check_passes (v : option bool) : bool :=
  match v with
  | Some false => false
  | _ => true
  end.

(** A row of [queries]. Nullable columns are options. The JSONB, REAL and
    timestamp columns and [is_active] carry no constraint and are left out. *)
Record Row : Type := mkRow {
  id : Z;
  query_text : string;
  query_type : string;
  response_text : option string;
  tokens_used : option Z;
  status : string;
  error_message : option string;
  conversation_id : option string;
  parent_query_id : option Z;
  user_rating : option Z;
  user_feedback : option string;
  user_id : Z
}.

(** The table, by primary key. *)
Abbreviation Table := (gmap Z Row).

(** [INTEGER] is a 32-bit signed integer. *)
Definition is_integer (z : Z) : bool :=
  (-2147483648 <=? z)%Z && (z <=? 2147483647)%Z.

Definition is_integer_or_null (v : option Z) : bool :=
  match v with
  | Some z => is_integer z
  | None => true
  end.

(** [CHECK (user_rating >= 1 AND user_rating <= 5)] *)
Definition user_rating_check (r : Row) : option bool :=
  sql_and (sql_ge (user_rating r) 1) (sql_le (user_rating r) 5).

(** [parent_query_id INTEGER REFERENCES queries(id)], checked against the
    table as it will be once the row is in. *)
Definition parent_exists (t : Table) (r : Row) : bool :=
  match parent_query_id r with
  | Some p => bool_decide (is_Some (t !! p))
  | None => true
  end.

Definition row_accepted (t : Table) (r : Row) : bool :=
  is_integer (id r) && is_integer_or_null (tokens_used r)
  && is_integer_or_null (parent_query_id r)
  && is_integer_or_null (user_rating r) && is_integer (user_id r)
  && check_passes (user_rating_check r)
  && parent_exists (<[id r := r]> t) r.

(** The statements that write to the table. [Update i f] stands for an
    UPDATE of the row with key [i] with any SET clause. *)
Inductive Statement : Type :=
| Insert (r : Row)
| Update (i : Z) (f : Row → Row)
| Delete (i : Z).

(** Whether another row names row [i] as its parent. *)
Definition referenced (t : Table) (i : Z) : bool :=
  bool_decide
    (map_Exists (λ j r, j ≠ i ∧ parent_query_id r = Some i) t).

(** A statement that violates a constraint fails and leaves the table as it
    was. An update may move a row to a free key that no other row refers
    to. *)
Definition execute (t : Table) (s : Statement) : Table :=
  match s with
  | Insert r =>
      match t !! id r with
      | Some _ => t
      | None => if row_accepted t r then <[id r := r]> t else t
      end
  | Update i f =>
      match t !! i with
      | Some r =>
          let r' := f r in
          let key_free :=
            bool_decide (id r' = i)
            || (bool_decide (t !! id r' = None) && negb (referenced t i)) in
          if key_free && row_accepted (delete i t) r'
          then <[id r' := r']> (delete i t) else t
      | None => t
      end
  | Delete i =>
      if referenced t i then t else delete i t
  end.

(** The property of a table that every rating it holds is from 1 to 5. *)
Definition ratings_in_range (t : Table) : Prop :=
  ∀ i r v, t !! i = Some r → user_rating r = Some v → (1 ≤ v ≤ 5)%Z.

Definition execute_all (t : Table) (ss : list Statement) : Table :=
  fold_left execute ss t.

(** Every row sits under its own [id]. *)
Definition keys_match (t : Table) : Prop :=
  ∀ i r, t !! i = Some r → id r = i.

(** Every [parent_query_id] names a row of the table. *)
Definition parents_exist (t : Table) : Prop :=
  ∀ i r p, t !! i = Some r → parent_query_id r = Some p →
           is_Some (t !! p).

End Schema.

(** ** The [documents] table of the initialisation script *)

Module Documents.

(** A row of [documents]. The JSONB and timestamp columns, [content_preview]
    and the reference to [users] carry no constraint modelled here and are
    left out, [owner_id] apart. *)
Record Row : Type := mkRow {
  id : Z;
  filename : string;
  original_filename : string;
  file_path : string;
  file_size : Z;
  file_type : string;
  mime_type : string;
  title : option string;
  description : option string;
  notebooklm_document_id : option string;
  processing_status : string;
  processing_error : option string;
  query_count : Z;
  owner_id : Z;
  is_active : bool
}.

Abbreviation Table := (gmap Z Row).

(** [BIGINT] is a 64-bit signed integer. *)
Definition is_bigint (z : Z) : bool :=
  (-9223372036854775808 <=? z)%Z && (z <=? 9223372036854775807)%Z.

(** [notebooklm_document_id VARCHAR(255) UNIQUE]: no other row has the same
    value; NULLs do not clash. *)
Definition reference_free (t : Table) (r : Row) : bool :=
  match notebooklm_document_id r with
  | Some x =>
      bool_decide
        (map_Forall (λ _ r', notebooklm_document_id r' ≠ Some x) t)
  | None => true
  end.

Definition row_accepted (t : Table) (r : Row) : bool :=
  Schema.is_integer (id r) && is_bigint (file_size r)
  && Schema.is_integer (query_count r) && Schema.is_integer (owner_id r)
  && reference_free t r.

Inductive Statement : Type :=
| Insert (r : Row)
| Update (i : Z) (f : Row → Row)
| Delete (i : Z).

(** A statement that violates a constraint fails and leaves the table as it
    was. Nothing refers to a document, so any row can be deleted or moved
    to a free key. *)
Definition execute (t : Table) (s : Statement) : Table :=
  match s with
  | Insert r =>
      match t !! id r with
      | Some _ => t
      | None => if row_accepted t r then <[id r := r]> t else t
      end
  | Update i f =>
      match t !! i with
      | Some r =>
          let r' := f r in
          let key_free :=
            bool_decide (id r' = i) || bool_decide (t !! id r' = None) in
          if key_free && row_accepted (delete i t) r'
          then <[id r' := r']> (delete i t) else t
      | None => t
      end
  | Delete i => delete i t
  end.

Definition execute_all (t : Table) (ss : list Statement) : Table :=
  fold_left execute ss t.

(** No two rows share an external reference. *)
Definition references_unique (t : Table) : Prop :=
  ∀ i j r r' x,
    t !! i = Some r → t !! j = Some r' →
    notebooklm_document_id r = Some x →
    notebooklm_document_id r' = Some x →
    i = j.

End Documents.

(** ** Documents *)

Module Lifecycle.

(** [processing_status] of the [Document] interface. *)
Inductive Status : Type := pending | processing | completed | failed.

(** The [Document] interface, with the columns the lifecycle reads or
    writes; timestamps are the strings the interface declares. *)
Record Document : Type := mkDocument {
  id : Z;
  original_filename : string;
  file_size : Z;
  mime_type : string;
  notebooklm_document_id : option string;
  processing_status : Status;
  processing_error : option string;
  query_count : Z;
  last_queried_at : option string;
  owner_id : Z;
  is_active : bool
}.

Record Store : Type := mkStore {
  documents : gmap Z Document;
  next_id : Z
}.

Definition empty : Store := mkStore ∅ 1.

(** Modelled from the spec: the coupling of status and external reference
    (section 3), as the boolean check that section 9 wants made at every
    mutation point. The Document Lifecycle Manager is back-end code that is
    not among the sources; only the [Document] interface and the
    [documents] table are. *)
Definition reference_present (d : Document) : bool :=
  match notebooklm_document_id d with
  | Some reference => negb (String.eqb reference "")
  | None => false
  end.

(** Modelled from the spec: the check itself. [completed] goes with a
    reference that is present and non-empty, [processing] and [failed] with
    none, and [pending], by the equivalence, with none that is non-empty. *)
Definition invariant_holds (d : Document) : bool :=
  match processing_status d with
  | completed => reference_present d
  | pending => negb (reference_present d)
  | processing | failed => bool_decide (notebooklm_document_id d = None)
  end.

(** Modelled from the spec: a mutation point. The document is written only
    if it passes the check; otherwise the store stays as it was. *)
Definition commit (s : Store) (d : Document) : Store :=
  if invariant_holds d
  then mkStore (<[id d := d]> (documents s)) (next_id s)
  else s.

Inductive Failure : Type :=
| InvalidDocument
| NotFound
| Forbidden
| InvalidState.

Record FileMeta : Type := mkFileMeta {
  meta_filename : string;
  meta_size : Z;
  meta_type : string
}.

(** The configured constraints on uploads. *)
Record Limits : Type := mkLimits {
  max_size : Z;
  allowed_types : list string
}.

Inductive Outcome : Type :=
| Ingested (reference : string)
| IngestionFailed (detail : string).

(** Modelled from the spec: [intake] (section 4.1). The back end that
    implements it is not among the sources. *)
Definition intake (limits : Limits) (s : Store) (ownerId : Z)
    (fileMeta : FileMeta) : Store * (Failure + Z) :=
  if (meta_size fileMeta <=? max_size limits)%Z
     && bool_decide (meta_type fileMeta ∈ allowed_types limits)
  then
    let d := mkDocument (next_id s) (meta_filename fileMeta)
               (meta_size fileMeta) (meta_type fileMeta) None pending None 0
               None ownerId true in
    let s' := commit s d in
    (mkStore (documents s') (next_id s + 1), inr (next_id s))
  else (s, inl InvalidDocument).

(** Modelled from the spec: the three columns a transition writes. *)
Definition with_status (st : Status) (reference error : option string)
    (d : Document) : Document :=
  mkDocument (id d) (original_filename d) (file_size d) (mime_type d)
    reference st error (query_count d) (last_queried_at d) (owner_id d)
    (is_active d).

(** Modelled from the spec: the hand-over to processing that follows
    [intake], [pending] to [processing]. Not among the sources. *)
Definition hand_off (s : Store) (documentId : Z) : Store :=
  match documents s !! documentId with
  | Some d =>
      match processing_status d with
      | pending => commit s (with_status processing None None d)
      | _ => s
      end
  | None => s
  end.

(** Modelled from the spec: [advance] (section 4.1); a transition asked
    from a terminal state is a no-op. Not among the sources. *)
Definition advance (s : Store) (documentId : Z) (outcome : Outcome)
  : Store :=
  match documents s !! documentId with
  | Some d =>
      match processing_status d with
      | pending | processing =>
          match outcome with
          | Ingested reference =>
              commit s (with_status completed (Some reference) None d)
          | IngestionFailed detail =>
              commit s (with_status failed None (Some detail) d)
          end
      | completed | failed => s
      end
  | None => s
  end.

(** Modelled from the spec: [recordQuery] (section 4.1), callable only on
    a completed document. Not among the sources. *)
Definition recordQuery (s : Store) (documentId : Z) (now : string)
  : Store * option Failure :=
  match documents s !! documentId with
  | Some d =>
      match processing_status d with
      | completed =>
          (commit s
             (mkDocument (id d) (original_filename d) (file_size d)
                (mime_type d) (notebooklm_document_id d)
                (processing_status d) (processing_error d)
                (query_count d + 1) (Some now) (owner_id d) (is_active d)),
           None)
      | _ => (s, Some InvalidState)
      end
  | None => (s, Some NotFound)
  end.

(** Modelled from the spec: [retire] (section 4.1), a soft delete by the
    owner or an administrator. Not among the sources. *)
Definition retire (s : Store) (documentId callerId : Z) (is_admin : bool)
  : Store * option Failure :=
  match documents s !! documentId with
  | Some d =>
      if bool_decide (owner_id d = callerId) || is_admin
      then
        (commit s
           (mkDocument (id d) (original_filename d) (file_size d)
              (mime_type d) (notebooklm_document_id d)
              (processing_status d) (processing_error d) (query_count d)
              (last_queried_at d) (owner_id d) false),
         None)
      else (s, Some Forbidden)
  | None => (s, Some NotFound)
  end.

(** The calls that reach the manager. *)
Inductive Call : Type :=
| Intake (ownerId : Z) (fileMeta : FileMeta)
| HandOff (documentId : Z)
| Advance (documentId : Z) (outcome : Outcome)
| RecordQuery (documentId : Z) (now : string)
| Retire (documentId callerId : Z) (is_admin : bool).

Definition perform (limits : Limits) (s : Store) (c : Call) : Store :=
  match c with
  | Intake ownerId fileMeta => (intake limits s ownerId fileMeta).1
  | HandOff documentId => hand_off s documentId
  | Advance documentId outcome => advance s documentId outcome
  | RecordQuery documentId now => (recordQuery s documentId now).1
  | Retire documentId callerId is_admin =>
      (retire s documentId callerId is_admin).1
  end.

Definition perform_all (limits : Limits) (s : Store) (cs : list Call)
  : Store :=
  fold_left (perform limits) cs s.

(** The invariant in the words of section 3. *)
Definition status_matches_reference (d : Document) : Prop :=
  (processing_status d = completed
   ↔ ∃ reference, notebooklm_document_id d = Some reference
                  ∧ reference ≠ "")
  ∧ (processing_status d = processing ∨ processing_status d = failed
     → notebooklm_document_id d = None).

Definition all_coupled (s : Store) : Prop :=
  ∀ i d, documents s !! i = Some d → status_matches_reference d.

End Lifecycle.

(** ** Conversations *)

Module Orchestrator.
Import Schema.

Record Store : Type := mkStore {
  rows : gmap Z Row;
  next_id : Z
}.

Definition empty : Store := mkStore ∅ 1.

Record Options : Type := mkOptions {
  conversationId : option string;
  parentQueryId : option Z
}.

Inductive Failure : Type :=
| InvalidThread
| NotFound
| Forbidden
| InvalidState.

(** The conversation ids in use. *)
Definition conversations (t : gmap Z Row) : gset string :=
  list_to_set (omap (λ kr, conversation_id kr.2) (map_to_list t)).

(** Modelled from the spec: the minting of a conversation id, which the
    spec only requires to be fresh and unique (sections 4.2 and 8). The
    Query Orchestrator is back-end code that is not among the sources; only
    the [Query] interface and the [queries] table are. *)
Definition mint (t : gmap Z Row) : string := fresh (conversations t).

(** Modelled from the spec: the creation of the pending row, keyed by the
    next value of the [SERIAL] sequence. Not among the sources. *)
Definition create (s : Store) (userId : Z) (text : string)
    (conversation : option string) (parent : option Z) : Store * Z :=
  let r := mkRow (next_id s) text "semantic" None None "pending" None
             conversation parent None None userId in
  (mkStore (<[next_id s := r]> (rows s)) (next_id s + 1), next_id s).

(** Modelled from the spec: the thread resolution of [submit] (section
    4.2), in the stricter reading of section 9: a supplied conversation id
    that differs from the parent's is refused. Not among the sources. *)
Definition submit (s : Store) (userId : Z) (text : string)
    (options : Options) : Store * (Failure + Z) :=
  match parentQueryId options with
  | Some p =>
      match rows s !! p with
      | Some parent =>
          if bool_decide (user_id parent = userId)
             && match conversationId options with
                | Some c => bool_decide (conversation_id parent = Some c)
                | None => true
                end
          then
            let (s', i) := create s userId text (conversation_id parent)
                             (Some p) in
            (s', inr i)
          else (s, inl InvalidThread)
      | None => (s, inl InvalidThread)
      end
  | None =>
      let c := match conversationId options with
               | Some c => c
               | None => mint (rows s)
               end in
      let (s', i) := create s userId text (Some c) None in
      (s', inr i)
  end.

Inductive Resolution : Type :=
| Answered (text : string) (tokens : Z)
| Failed (detail : string).

(** Modelled from the spec: the outcome of the external call written to a
    pending query (section 4.2). Not among the sources. *)
Definition resolve (s : Store) (queryId : Z) (res : Resolution) : Store :=
  match rows s !! queryId with
  | Some r =>
      if String.eqb (status r) "pending"
      then
        let r' :=
          match res with
          | Answered text tokens =>
              mkRow (id r) (query_text r) (query_type r) (Some text)
                (Some tokens) "completed" None (conversation_id r)
                (parent_query_id r) (user_rating r) (user_feedback r)
                (user_id r)
          | Failed detail =>
              mkRow (id r) (query_text r) (query_type r) None None "failed"
                (Some detail) (conversation_id r) (parent_query_id r)
                (user_rating r) (user_feedback r) (user_id r)
          end in
        mkStore (<[queryId := r']> (rows s)) (next_id s)
      else s
  | None => s
  end.

(** Modelled from the spec: [rate] (section 4.2), on a completed query of
    the caller. Not among the sources. *)
Definition rate (s : Store) (queryId userId rating : Z)
    (feedback : option string) : Store * option Failure :=
  match rows s !! queryId with
  | Some r =>
      if negb (bool_decide (user_id r = userId)) then (s, Some Forbidden)
      else if negb (String.eqb (status r) "completed")
      then (s, Some InvalidState)
      else
        let r' := mkRow (id r) (query_text r) (query_type r)
                    (response_text r) (tokens_used r) (status r)
                    (error_message r) (conversation_id r)
                    (parent_query_id r) (Some rating) feedback (user_id r) in
        if check_passes (user_rating_check r')
        then (mkStore (<[queryId := r']> (rows s)) (next_id s), None)
        else (s, Some InvalidState)
  | None => (s, Some NotFound)
  end.

Inductive Call : Type :=
| Submit (userId : Z) (text : string) (options : Options)
| Resolve (queryId : Z) (res : Resolution)
| Rate (queryId userId rating : Z) (feedback : option string).

Definition perform (s : Store) (c : Call) : Store :=
  match c with
  | Submit userId text options => (submit s userId text options).1
  | Resolve queryId res => resolve s queryId res
  | Rate queryId userId rating feedback =>
      (rate s queryId userId rating feedback).1
  end.

Definition perform_all (s : Store) (cs : list Call) : Store :=
  fold_left perform cs s.

(** The threading invariant in the words of section 3. *)
Definition threads_agree (t : gmap Z Row) : Prop :=
  ∀ i q p, t !! i = Some q → parent_query_id q = Some p →
           ∃ parent, t !! p = Some parent
                     ∧ conversation_id q = conversation_id parent.

(** Keys handed out so far lie below the sequence. *)
Definition keys_below (s : Store) : Prop :=
  ∀ i, is_Some (rows s !! i) → (i < next_id s)%Z.

Definition well_threaded (s : Store) : Prop :=
  threads_agree (rows s) ∧ keys_below s.

End Orchestrator.

(** ** Concrete sessions, used to exercise the statements below *)

Module Scenario.
Import Js Api.

Definition clock (n : nat) : Entropy :=
  mkEntropy (1700000000000 + N.of_nat n) "k3j9x0q2z".

Definition expired : Response :=
  mkResponse 401 (Some {[ "detail" := "Token has expired" ]}).

(** The issuer's answer to a refresh token it does not accept. *)
Definition refused : Response :=
  mkResponse 401 (Some {[ "detail" := "Invalid refresh token" ]}).

(** An issuer that turns every refresh call down. *)
Definition rejecting : Env :=
  mkEnv (λ _ c, if is_refresh_call c then Replied refused else Replied expired)
    clock.

Definition fresh_tokens : Json :=
  <["refresh_token" := "r2"]> {[ "access_token" := "a2" ]}.

(** An issuer that renews the pair, in front of an API that answers 401
    unless the request carries the renewed access token. *)
Definition renewing : Env :=
  mkEnv
    (λ _ c,
       if is_refresh_call c then Replied (mkResponse 200 (Some fresh_tokens))
       else if bool_decide (headers c !! "Authorization" = Some "Bearer a2")
            then Replied (mkResponse 200 (Some {[ "total" := "3" ]}))
            else Replied expired)
    clock.

Definition signed_in_browser : Browser :=
  mkBrowser (<["refresh_token" := "r1"]> {[ "access_token" := "a1" ]})
    "/documents".

Definition signed_in : World :=
  mkWorld (Some "a1") (Some signed_in_browser) [] [].

Definition list_documents : Config :=
  merge_config "get" "/api/v1/documents" ∅ no_config.

(** The client as it runs on the server side, without a window. *)
Definition server_side : World := mkWorld (Some "a1") None [] [].

(** An issuer that turns the login down with a reason. *)
Definition refusing : Env :=
  mkEnv
    (λ _ _, Replied (mkResponse 400 (Some {[ "detail" := "Inactive user" ]})))
    clock.

(** A server that fails without a body to read. *)
Definition broken : Env :=
  mkEnv (λ _ _, Replied (mkResponse 500 None)) clock.

(** An issuer that answers the login with 401 and a reason, and turns
    refresh calls down. *)
Definition wrong_password : Env :=
  mkEnv
    (λ _ c,
       if is_refresh_call c then Replied refused
       else Replied
              (mkResponse 401
                 (Some {[ "detail" := "Incorrect username or password" ]})))
    clock.

Definition alice : AuthStore.UserLogin :=
  AuthStore.mkUserLogin "alice" "Passw0rd".

(** The store of a user who is signed in. *)
Definition authenticated : AuthStore.AuthState :=
  AuthStore.mkAuthState (Some {[ "username" := "bob" ]}) (Some "a1") true
    false None.

(** Rows for the [queries] table. *)
Definition question (rating : option Z) : Schema.Row :=
  Schema.mkRow 1%Z "What is X?" "semantic" (Some "X is ...") (Some 120%Z)
    "completed" None (Some "c1") None rating None 7%Z.

Definition rerate (rating : option Z) (r : Schema.Row) : Schema.Row :=
  Schema.mkRow (Schema.id r) (Schema.query_text r) (Schema.query_type r)
    (Schema.response_text r) (Schema.tokens_used r) (Schema.status r)
    (Schema.error_message r) (Schema.conversation_id r)
    (Schema.parent_query_id r) rating (Schema.user_feedback r)
    (Schema.user_id r).

(** An upload and its way through the lifecycle. *)
Definition limits : Lifecycle.Limits :=
  Lifecycle.mkLimits 10485760 ["application/pdf"; "text/plain"].

Definition report : Lifecycle.FileMeta :=
  Lifecycle.mkFileMeta "report.pdf" 2097152 "application/pdf".

Definition ingestion : list Lifecycle.Call :=
  [Lifecycle.Intake 7 report; Lifecycle.HandOff 1;
   Lifecycle.Advance 1 (Lifecycle.Ingested "nlm-42")].

Definition ingested_report : Lifecycle.Document :=
  Lifecycle.mkDocument 1 "report.pdf" 2097152 "application/pdf"
    (Some "nlm-42") Lifecycle.completed None 0 None 7 true.

(** A question and its follow-up. *)
Definition conversation : list Orchestrator.Call :=
  [Orchestrator.Submit 7 "What is X?" (Orchestrator.mkOptions None None);
   Orchestrator.Resolve 1 (Orchestrator.Answered "X is ..." 120);
   Orchestrator.Submit 7 "And Y?" (Orchestrator.mkOptions None (Some 1%Z))].

End Scenario.

(** * Properties *)

(** ** The pattern of [validatePassword] *)

Section RegexFacts.
Import Regex.

Lemma nonempty_In {A} (l : list A) :
  match l with [] => false | _ :: _ => true end = true ↔ ∃ x, In x l.
Proof.
  destruct l as [|x l]; simpl; split; try discriminate; eauto.
  intros [x []].
Qed.

Lemma in_ends_Class f i s c' :
  In c' (ends (Class f) (i, s))
  ↔ ∃ a s', s = a :: s' ∧ f a = true ∧ c' = (S i, s').
Proof.
  simpl. destruct s as [|a s]; simpl.
  - split; [intros [] | intros (? & ? & ? & _); discriminate].
  - destruct (f a) eqn:Hf; simpl; split.
    + intros [<- | []]. eauto.
    + intros (a' & s' & [= <- <-] & _ & ->). by left.
    + intros [].
    + intros (a' & s' & [= <- <-] & Hf' & _). congruence.
Qed.

Lemma in_iter_star_Class f fuel : ∀ i s c',
  In c' (iter_star (ends (Class f)) fuel (i, s))
  ↔ ∃ k, (k ≤ fuel)%nat ∧ (k ≤ length s)%nat
         ∧ forallb f (take k s) = true ∧ c' = ((i + k)%nat, drop k s).
Proof.
  induction fuel as [|fuel IH]; intros i s c'.
  - simpl. split.
    + intros [<- | []]. exists 0%nat. rewrite Nat.add_0_r.
      repeat split; simpl; lia.
    + intros (k & Hk & _ & _ & ->). assert (k = 0)%nat as -> by lia.
      rewrite Nat.add_0_r. by left.
  - cbn [iter_star]. rewrite in_app_iff, in_flat_map. split.
    + intros [(x & Hx & Hc') | [<- | []]].
      * apply filter_In in Hx as [Hx _].
        apply in_ends_Class in Hx as (a & s' & -> & Hf & ->).
        apply IH in Hc' as (k & Hk & Hlen & Hall & ->).
        exists (S k). simpl. rewrite Hf, Hall.
        repeat split; try lia. f_equal. lia.
      * exists 0%nat. rewrite Nat.add_0_r. repeat split; simpl; lia.
    + intros (k & Hk & Hlen & Hall & ->). destruct k as [|k].
      * right. left. by rewrite Nat.add_0_r.
      * left. destruct s as [|a s]; [simpl in Hlen; lia|].
        simpl in Hall. apply andb_true_iff in Hall as [Hf Hall].
        exists (S i, s). split.
        -- apply filter_In. split.
           ++ apply in_ends_Class. eauto.
           ++ unfold advanced. cbn [fst].
              destruct (Nat.eqb_spec (S i) i); [lia | done].
        -- apply IH. exists k. simpl in Hlen.
           repeat split; try lia; [done|]. simpl. f_equal. lia.
Qed.

Lemma in_ends_Star_Class f i s c' :
  In c' (ends (Star (Class f)) (i, s))
  ↔ ∃ k, (k ≤ length s)%nat ∧ forallb f (take k s) = true
         ∧ c' = ((i + k)%nat, drop k s).
Proof.
  change (ends (Star (Class f)) (i, s))
    with (iter_star (ends (Class f)) (length s) (i, s)).
  rewrite in_iter_star_Class. split.
  - intros (k & _ & ? & ? & ?). eauto.
  - intros (k & ? & ? & ?). exists k. eauto.
Qed.

Lemma in_ends_times_Class f n : ∀ i s c',
  In c' (ends (times n (Class f)) (i, s))
  ↔ (n ≤ length s)%nat ∧ forallb f (take n s) = true
    ∧ c' = ((i + n)%nat, drop n s).
Proof.
  induction n as [|n IH]; intros i s c'.
  - simpl. rewrite Nat.add_0_r. split.
    + intros [<- | []]. repeat split. lia.
    + intros (_ & _ & ->). by left.
  - cbn [times ends]. rewrite in_flat_map. split.
    + intros (x & Hx & Hc').
      apply in_ends_Class in Hx as (a & s' & -> & Hf & ->).
      apply IH in Hc' as (Hlen & Hall & ->). simpl.
      rewrite Hf, Hall. repeat split; try lia. f_equal. lia.
    + intros (Hlen & Hall & ->). destruct s as [|a s]; [simpl in Hlen; lia|].
      simpl in Hall. apply andb_true_iff in Hall as [Hf Hall].
      exists (S i, s). split; [apply in_ends_Class; eauto|].
      apply IH. simpl in Hlen. repeat split; try lia; [done|].
      simpl. f_equal. lia.
Qed.

(** [(?=r)] in front of [r2] filters and consumes nothing. *)
Lemma ends_Cat_Look r r2 c :
  ends (Cat (Look r) r2) c
  = if match ends r c with [] => false | _ :: _ => true end
    then ends r2 c else [].
Proof.
  cbn [ends]. destruct (ends r c); simpl; [done|]. by rewrite app_nil_r.
Qed.

Lemma test_anchored r s :
  test (Cat Bos r) s
  = match ends r (0%nat, list_ascii_of_string s) with
    | [] => false
    | _ :: _ => true
    end.
Proof.
  unfold test. cbn [seq existsb].
  replace (existsb _ (seq 1 _)) with false.
  - rewrite orb_false_r. unfold matches_at. cbn [ends drop].
    simpl. by rewrite app_nil_r.
  - symmetry. apply not_true_is_false. intros H.
    apply existsb_exists in H as (i & Hi & Hm).
    apply in_seq in Hi. unfold matches_at in Hm. cbn [ends] in Hm.
    simpl in Hm. destruct (Nat.eqb_spec i 0); [lia|]. discriminate.
Qed.

End RegexFacts.

Section PasswordFacts.
Import Regex Password.

Lemma existsb_eqb_In a (l : list ascii) :
  existsb (Ascii.eqb a) l = true ↔ In a l.
Proof.
  rewrite existsb_exists. split.
  - intros (b & Hb & Heq). apply Ascii.eqb_eq in Heq. by subst.
  - intros Ha. exists a. split; [done | apply Ascii.eqb_refl].
Qed.

Ltac by_cases_on_ascii a :=
  destruct a as [[] [] [] [] [] [] [] []]; vm_compute; reflexivity.

Lemma lower_enum a : lower a = existsb (Ascii.eqb a) lowercase_letters.
Proof. by_cases_on_ascii a. Qed.

Lemma upper_enum a : upper a = existsb (Ascii.eqb a) uppercase_letters.
Proof. by_cases_on_ascii a. Qed.

Lemma digit_enum a : digit a = existsb (Ascii.eqb a) decimal_digits.
Proof. by_cases_on_ascii a. Qed.

Lemma allowed_enum a :
  allowed a
  = existsb (Ascii.eqb a)
      (lowercase_letters ++ uppercase_letters ++ decimal_digits
       ++ special_characters).
Proof. by_cases_on_ascii a. Qed.

Lemma allowed_dot a : allowed a = true → dot a = true.
Proof.
  destruct a as [[] [] [] [] [] [] [] []]; vm_compute; congruence.
Qed.

Lemma allowed_permitted a : allowed a = true ↔ permitted_character a.
Proof. rewrite allowed_enum. apply existsb_eqb_In. Qed.

(** The lookahead [(?=.*[f])] succeeds at [(i, s)] exactly when some
    character of [s] is in the class and no line terminator precedes it. *)
Lemma somewhere_matches f i (s : list ascii) :
  match ends (Cat (Star (Class dot)) (Class f)) (i, s) with
  | [] => false
  | _ :: _ => true
  end = true
  ↔ ∃ k a, forallb dot (take k s) = true ∧ s !! k = Some a ∧ f a = true.
Proof.
  rewrite nonempty_In. split.
  - intros (c' & Hc'). cbn [ends] in Hc'. apply in_flat_map in Hc'.
    destruct Hc' as (x & Hx & Hc').
    apply in_ends_Star_Class in Hx as (k & Hk & Hall & ->).
    apply in_ends_Class in Hc' as (a & s' & Hdrop & Hf & _).
    exists k, a. repeat split; try done.
    rewrite <- (Nat.add_0_r k), <- lookup_drop, Hdrop. done.
  - intros (k & a & Hall & Hk & Hf).
    exists (S (i + k), drop (S k) s). cbn [ends]. apply in_flat_map.
    exists ((i + k)%nat, drop k s). split.
    + apply in_ends_Star_Class. exists k. repeat split; try done.
      apply lookup_lt_Some in Hk. lia.
    + apply in_ends_Class. exists a, (drop (S k) s).
      repeat split; try done. by apply drop_S.
Qed.

Lemma somewhere_among_allowed f i (s : list ascii) :
  forallb allowed s = true →
  (∃ a, In a s ∧ f a = true) →
  match ends (Cat (Star (Class dot)) (Class f)) (i, s) with
  | [] => false
  | _ :: _ => true
  end = true.
Proof.
  intros Hall (a & Ha & Hf). apply somewhere_matches.
  apply list_elem_of_In, list_elem_of_lookup in Ha as [k Hk].
  exists k, a. repeat split; try done.
  apply forallb_forall. intros b Hb. apply allowed_dot.
  rewrite forallb_forall in Hall. apply Hall.
  apply list_elem_of_In. apply list_elem_of_In in Hb.
  apply elem_of_take in Hb as (j & Hj & _). apply list_elem_of_lookup. eauto.
Qed.

Lemma somewhere_found f i (s : list ascii) :
  match ends (Cat (Star (Class dot)) (Class f)) (i, s) with
  | [] => false
  | _ :: _ => true
  end = true →
  ∃ a, In a s ∧ f a = true.
Proof.
  intros H. apply somewhere_matches in H as (k & a & _ & Hk & Hf).
  exists a. split; [|done]. apply list_elem_of_In, list_elem_of_lookup. eauto.
Qed.

(** [[...]{8,}$] from the start of the input. *)
Lemma body_matches (s : list ascii) :
  match ends (Cat (at_least 8 (Class allowed)) Eos) (0%nat, s) with
  | [] => false
  | _ :: _ => true
  end = true
  ↔ (8 ≤ length s)%nat ∧ forallb allowed s = true.
Proof.
  rewrite nonempty_In. split.
  - intros (c' & Hc'). cbn [ends at_least] in Hc'.
    apply in_flat_map in Hc' as (x & Hx & Hc').
    apply in_flat_map in Hx as (y & Hy & Hx).
    apply in_ends_times_Class in Hy as (Hlen & Hhead & ->).
    apply in_ends_Star_Class in Hx as (k & Hk & Htail & ->).
    split; [done|]. cbn [ends snd] in Hc'.
    destruct (drop k (drop 8 s)) eqn:Hrest; [|destruct Hc'].
    assert (length (drop k (drop 8 s)) = 0)%nat as Hz by (by rewrite Hrest).
    rewrite length_drop in Hz.
    rewrite take_ge in Htail by lia.
    rewrite <- (take_drop 8 s), forallb_app. by rewrite Hhead, Htail.
  - intros (Hlen & Hall).
    rewrite <- (take_drop 8 s), forallb_app in Hall.
    apply andb_true_iff in Hall as [Hhead Htail].
    exists ((0 + 8 + length (drop 8 s))%nat, []).
    cbn [ends at_least]. apply in_flat_map.
    exists ((0 + 8 + length (drop 8 s))%nat, []). split; [|simpl; auto].
    apply in_flat_map. exists ((0 + 8)%nat, drop 8 s). split.
    + by apply in_ends_times_Class.
    + apply in_ends_Star_Class. exists (length (drop 8 s)).
      rewrite take_ge, (drop_ge (drop 8 s)) by lia. done.
Qed.

End PasswordFacts.

Example validatePassword_accepts :
  Password.validatePassword "Passw0rd" = true.
Proof. reflexivity. Qed.

Example validatePassword_rejects_space :
  Password.validatePassword "Pass w0rd" = false.
Proof. reflexivity. Qed.

Example validatePassword_rejects_short :
  Password.validatePassword "Passw0r" = false.
Proof. reflexivity. Qed.

(** C10. [validatePassword] returns true exactly for the passwords of
    length at least 8 made only of ASCII letters, digits and [@$!%*?&] that
    contain a lowercase letter, an uppercase letter and a digit; and some
    password of length at least 8 with an uppercase letter, a lowercase
    letter and a digit (one that includes [#]) is rejected. *)
Theorem validatePassword_characterised :
  (∀ password,
     Password.validatePassword password = true
     ↔ Password.password_rule password)
  ∧ (∃ password,
       let l := list_ascii_of_string password in
       (8 ≤ length l)%nat
       ∧ (∃ a, In a l ∧ In a Password.lowercase_letters)
       ∧ (∃ a, In a l ∧ In a Password.uppercase_letters)
       ∧ (∃ a, In a l ∧ In a Password.decimal_digits)
       ∧ In "#"%char l
       ∧ Password.validatePassword password = false).
Proof.
  split.
  - intros password. unfold Password.validatePassword, Password.passwordRegex.
    rewrite test_anchored. unfold Password.somewhere.
    rewrite !ends_Cat_Look. unfold Password.password_rule.
    set (l := list_ascii_of_string password). cbv zeta. split.
    + intros H.
      destruct (match Regex.ends (Regex.Cat _ (Regex.Class Password.lower)) _
                with [] => false | _ => true end) eqn:Hlo; [|discriminate].
      destruct (match Regex.ends (Regex.Cat _ (Regex.Class Password.upper)) _
                with [] => false | _ => true end) eqn:Hup; [|discriminate].
      destruct (match Regex.ends (Regex.Cat _ (Regex.Class Regex.digit)) _
                with [] => false | _ => true end) eqn:Hdi; [|discriminate].
      apply body_matches in H as [Hlen Hall].
      apply somewhere_found in Hlo as (a1 & Ha1 & Hf1).
      apply somewhere_found in Hup as (a2 & Ha2 & Hf2).
      apply somewhere_found in Hdi as (a3 & Ha3 & Hf3).
      rewrite lower_enum, existsb_eqb_In in Hf1.
      rewrite upper_enum, existsb_eqb_In in Hf2.
      rewrite digit_enum, existsb_eqb_In in Hf3.
      rewrite forallb_forall in Hall.
      repeat split; eauto. intros a Ha. apply allowed_permitted. auto.
    + intros (Hlen & Hall & (a1 & Ha1 & Hf1) & (a2 & Ha2 & Hf2)
              & (a3 & Ha3 & Hf3)).
      assert (forallb Password.allowed l = true) as Hall'.
      { apply forallb_forall. intros a Ha. apply allowed_permitted. auto. }
      rewrite <- existsb_eqb_In, <- lower_enum in Hf1.
      rewrite <- existsb_eqb_In, <- upper_enum in Hf2.
      rewrite <- existsb_eqb_In, <- digit_enum in Hf3.
      rewrite !somewhere_among_allowed by eauto.
      apply body_matches. auto.
  - exists "Passw0rd#". cbv zeta. split; [simpl; lia|].
    split; [exists "a"%char; simpl; tauto|].
    split; [exists "P"%char; simpl; tauto|].
    split; [exists "0"%char; simpl; tauto|].
    split; [simpl; tauto | reflexivity].
Qed.

(** ** The request interceptor *)

Section InterceptorFacts.
Import Js Api.

Lemma truthy_Some t : truthy (Some t) = true ↔ t ≠ "".
Proof.
  simpl. rewrite negb_true_iff. split.
  - intros H ->. by rewrite String.eqb_refl in H.
  - intros H. by apply String.eqb_neq.
Qed.

Lemma requestInterceptor_authorization w e config :
  headers (requestInterceptor w e config) !! "Authorization"
  = match authToken w with
    | Some t =>
        if truthy (Some t) && negb (skipAuth config)
        then Some ("Bearer " +:+ t)
        else headers config !! "Authorization"
    | None => headers config !! "Authorization"
    end.
Proof.
  unfold requestInterceptor.
  destruct (authToken w) as [t|]; [destruct (truthy (Some t) && _)|];
    cbn [set_header headers]; rewrite lookup_insert_ne by done;
    [by rewrite lookup_insert_eq | done | done].
Qed.

Lemma requestInterceptor_skipAuth w e config :
  skipAuth (requestInterceptor w e config) = skipAuth config.
Proof.
  unfold requestInterceptor.
  destruct (authToken w) as [t|]; [destruct (truthy (Some t) && _)|]; done.
Qed.

Lemma requestInterceptor_url w e config :
  url (requestInterceptor w e config) = url config.
Proof.
  unfold requestInterceptor.
  destruct (authToken w) as [t|]; [destruct (truthy (Some t) && _)|]; done.
Qed.

Lemma requestInterceptor_correlation w e config :
  headers (requestInterceptor w e config) !! "X-Correlation-ID"
  = Some (generateCorrelationId e).
Proof. unfold requestInterceptor. cbn [set_header headers].
  by rewrite lookup_insert_eq. Qed.

(** A request made with [skipAuth] never reaches the token-expiration
    handler, whatever comes back. *)
Lemma responseRejected_skipAuth handle w config response :
  skipAuth config = true →
  responseRejected handle w config response
  = responseRejected unreachable_handler w config response.
Proof.
  intros Hskip. unfold responseRejected.
  by rewrite Hskip, andb_false_r.
Qed.

Lemma settle_skipAuth_ignores_handler handle w config reply :
  skipAuth config = true →
  settle handle w config reply
  = settle unreachable_handler w config reply.
Proof.
  intros Hskip. unfold settle.
  destruct reply as [r|]; [destruct (validateStatus _)|];
    auto using responseRejected_skipAuth.
Qed.

Lemma begin_Awaiting w w' rc :
  handleTokenExpiration_begin w = Awaiting w' rc →
  w' = w ∧ ∃ rt, getItem "refresh_token" w = Some rt ∧ rt ≠ ""
                 ∧ rc = refreshConfig rt.
Proof.
  unfold handleTokenExpiration_begin, without_refresh_token.
  destruct (getItem "refresh_token" w) as [rt|] eqn:Hrt.
  - destruct (truthy (Some rt)) eqn:Ht.
    + intros [= <- <-]. split; [done|]. exists rt.
      by rewrite <- truthy_Some.
    + destruct (go_to_login _) as [? []]; [destruct (session_expired _)|];
        discriminate.
  - destruct (go_to_login _) as [? []]; [destruct (session_expired _)|];
      discriminate.
Qed.

End InterceptorFacts.

(** C4. A request that brings no credential of its own leaves the request
    interceptor with an [Authorization] header exactly when a (non-empty)
    token is held and the request was not made with [skipAuth], and the
    header is then [Bearer] followed by that token. The refresh call is made
    with [skipAuth]: it goes out without the header, and no reply to it
    brings the token-expiration handler back in. *)
Theorem attach_iff_token_held_and_not_skipped :
  ∀ (env : Api.Env) (w : Api.World) (e : Api.Entropy) (config : Api.Config),
    Api.headers config !! "Authorization" = None →
    (is_Some (Api.headers (Api.requestInterceptor w e config)
                !! "Authorization")
     ↔ (∃ t, Api.authToken w = Some t ∧ t ≠ "")
       ∧ Api.skipAuth config = false)
    ∧ (∀ t, Api.authToken w = Some t → t ≠ "" →
            Api.skipAuth config = false →
            Api.headers (Api.requestInterceptor w e config)
              !! "Authorization" = Some ("Bearer " +:+ t))
    ∧ (∀ w' rc,
         Api.handleTokenExpiration_begin w = Api.Awaiting w' rc →
         Api.skipAuth rc = true
         ∧ Api.headers (Api.dispatch env w' rc).2 !! "Authorization" = None
         ∧ ∀ handle w'' reply,
             Api.settle handle w'' (Api.dispatch env w' rc).2 reply
             = Api.settle Api.unreachable_handler w''
                 (Api.dispatch env w' rc).2 reply).
Proof.
  intros env w e config Hnone. split; [|split].
  - rewrite requestInterceptor_authorization, Hnone.
    destruct (Api.authToken w) as [t|]; [|split].
    + destruct (Js.truthy (Some t)) eqn:Ht;
        destruct (Api.skipAuth config) eqn:Hs; simpl; split.
      * intros [? [=]].
      * intros [_ [=]].
      * intros _. split; [|done]. exists t. by rewrite <- truthy_Some.
      * eauto.
      * intros [? [=]].
      * intros [_ [=]].
      * intros [? [=]].
      * intros [(t' & [= <-] & Hne) _]. apply truthy_Some in Hne. congruence.
    + intros [? [=]].
    + intros [(t & [=] & _) _].
  - intros t Ht Hne Hs. rewrite requestInterceptor_authorization, Ht, Hs.
    apply truthy_Some in Hne. by rewrite Hne.
  - intros w' rc Hb. apply begin_Awaiting in Hb as (-> & rt & _ & _ & ->).
    split; [done|]. cbn [Api.dispatch snd]. split.
    + rewrite requestInterceptor_authorization.
      change (Api.skipAuth (Api.refreshConfig rt)) with true.
      destruct (Api.authToken w) as [t|]; [rewrite andb_false_r|];
        reflexivity.
    + intros handle w'' reply. apply settle_skipAuth_ignores_handler.
      by rewrite requestInterceptor_skipAuth.
Qed.

(** ** The token-expiration handler *)

Section HandlerFacts.
Import Js Api.

Lemma handleApiError_frame w response :
  ∃ ts thrown, handleApiError w response
               = (mkWorld (authToken w) (window w) ts (sent w), thrown).
Proof.
  unfold handleApiError. destruct response as [r|]; [|by eexists _, _].
  destruct (data r); [by eexists _, _|].
  eexists (toasts w), _. by destruct w.
Qed.

(** Away from the token-expiration handler the interceptor rejects, and
    touches nothing but the toasts. *)
Lemma responseRejected_frame handle w config response :
  is_unauthorized response && negb (skipAuth config) = false →
  ∃ ts e, responseRejected handle w config response
          = (mkWorld (authToken w) (window w) ts (sent w), Rejected e).
Proof.
  intros Hno. unfold responseRejected. rewrite Hno.
  destruct (negb (skipErrorHandling config)).
  - destruct (handleApiError_frame w response) as (ts & thrown & ->).
    destruct thrown; by eexists _, _.
  - eexists (toasts w), _. by destruct w.
Qed.

Lemma settle_frame handle w config reply :
  skipAuth config = true →
  accepted reply = false →
  ∃ ts e, settle handle w config reply
          = (mkWorld (authToken w) (window w) ts (sent w), Rejected e).
Proof.
  intros Hskip Hrej. unfold settle, accepted in *.
  destruct reply as [r|]; [rewrite Hrej|];
    apply responseRejected_frame; by rewrite Hskip, andb_false_r.
Qed.

Lemma getItem_clearAuthToken_access w :
  getItem "access_token" (clearAuthToken w) = None.
Proof.
  unfold getItem, clearAuthToken, with_storage. simpl.
  destruct (window w); [|done]. simpl.
  rewrite lookup_delete_ne by done. apply lookup_delete_eq.
Qed.

Lemma getItem_clearAuthToken_refresh w :
  getItem "refresh_token" (clearAuthToken w) = None.
Proof.
  unfold getItem, clearAuthToken, with_storage. simpl.
  destruct (window w); [|done]. simpl. apply lookup_delete_eq.
Qed.

Lemma go_to_login_clear w b :
  window w = Some b →
  ∃ w', go_to_login (clearAuthToken w) = (w', None)
        ∧ signed_out w' ∧ sent w' = sent w.
Proof.
  intros Hw. unfold go_to_login.
  pose proof (getItem_clearAuthToken_access w) as Ha.
  pose proof (getItem_clearAuthToken_refresh w) as Hr.
  unfold getItem in Ha, Hr.
  destruct (window (clearAuthToken w)) as [b'|] eqn:Hb'.
  - eexists. split; [done|]. split; [split|]; simpl; try done.
  - unfold clearAuthToken, with_storage in Hb'. simpl in Hb'.
    by rewrite Hw in Hb'.
Qed.

Lemma session_expired_browser w b :
  window w = Some b →
  ∃ w', session_expired w = (w', None) ∧ signed_out w' ∧ sent w' = sent w.
Proof.
  intros Hw. unfold session_expired, go_to_login.
  pose proof (getItem_clearAuthToken_access w) as Ha.
  pose proof (getItem_clearAuthToken_refresh w) as Hr.
  unfold getItem in Ha, Hr. unfold toast_error.
  cbn [window authToken toasts sent].
  destruct (window (clearAuthToken w)) as [b'|] eqn:Hb'.
  - eexists. split; [done|]. split; [split|]; simpl; try done.
  - unfold clearAuthToken, with_storage in Hb'. simpl in Hb'.
    by rewrite Hw in Hb'.
Qed.

(** The request interceptor reads the world and leaves it alone, so a world
    without a token stays without one over any number of requests. *)
Lemma dispatch_all_without_token env : ∀ configs w,
  authToken w = None →
  Forall2 (λ c c', headers c' !! "Authorization"
                   = headers c !! "Authorization")
    configs (dispatch_all env w configs).
Proof.
  induction configs as [|c configs IH]; intros w Hw; [constructor|].
  cbn [dispatch_all dispatch]. constructor.
  - by rewrite requestInterceptor_authorization, Hw.
  - by apply IH.
Qed.

End HandlerFacts.

Section UnauthorizedFacts.
Import Js Api.

(** A 401 reply to a request made without [skipAuth] hands over to the
    token-expiration handler. *)
Lemma request_unauthorized env w config r :
  skipAuth config = false →
  server env (length (sent w)) (dispatch env w config).2 = Replied r →
  status r = 401%Z →
  request env w config
  = let (w', thrown) :=
      handleTokenExpiration env (dispatch env w config).1 in
    (w', handler_outcome thrown).
Proof.
  intros Hskip Hreply Hstatus. unfold request, request_with.
  cbn [dispatch fst snd] in *. rewrite Hreply. unfold settle, validateStatus.
  rewrite Hstatus. cbn [Z.leb Z.ltb Z.compare Pos.compare Pos.compare_cont
    andb]. unfold responseRejected, is_unauthorized.
  rewrite Hstatus, requestInterceptor_skipAuth, Hskip. cbn [Z.eqb Pos.eqb
    andb negb].
  done.
Qed.

Lemma truthy_false_begin w b :
  window w = Some b →
  truthy (localStorage b !! "refresh_token") = false →
  handleTokenExpiration_begin w = without_refresh_token w.
Proof.
  intros Hw Ht. unfold handleTokenExpiration_begin, getItem. rewrite Hw.
  destruct (localStorage b !! "refresh_token") as [rt|]; [|done].
  by rewrite Ht.
Qed.

Lemma truthy_begin w b rt :
  window w = Some b →
  localStorage b !! "refresh_token" = Some rt →
  rt ≠ "" →
  handleTokenExpiration_begin w = Awaiting w (refreshConfig rt).
Proof.
  intros Hw Hrt Hne. unfold handleTokenExpiration_begin, getItem.
  rewrite Hw, Hrt. apply truthy_Some in Hne. by rewrite Hne.
Qed.

Lemma is_refresh_call_dispatched w e rt :
  is_refresh_call (requestInterceptor w e (refreshConfig rt)) = true
  ∧ skipAuth (requestInterceptor w e (refreshConfig rt)) = true.
Proof.
  unfold is_refresh_call.
  by rewrite requestInterceptor_url, requestInterceptor_skipAuth.
Qed.

(** Without a refresh token the handler ends at once, and leaves neither a
    token in memory nor a refresh token in storage, window or not. *)
Lemma without_refresh_token_cleared w :
  ∃ w' thrown, without_refresh_token w = Finished w' thrown
               ∧ authToken w' = None
               ∧ getItem "refresh_token" w' = None.
Proof.
  unfold without_refresh_token, session_expired, go_to_login, getItem,
    clearAuthToken, with_storage, with_authToken, toast_error.
  cbn [window authToken toasts sent].
  destruct (window w) as [b|]; cbn [window localStorage authToken].
  - eexists _, _. split; [reflexivity|]. split; [done|]. cbn.
    apply lookup_delete_eq.
  - eexists _, _. split; [reflexivity|]. done.
Qed.

(** With no token in memory, no refresh token in storage and no refresh
    call in flight, no failure and no stray refresh reply brings a token
    back. *)
Lemma step_stays_cleared env l ev :
  authToken (world l) = None →
  getItem "refresh_token" (world l) = None →
  refreshing l = [] →
  authToken (world (step env l ev)) = None
  ∧ getItem "refresh_token" (world (step env l ev)) = None
  ∧ refreshing (step env l ev) = [].
Proof.
  intros Htok Hrt Hnone. destruct ev as [config response | i reply];
    cbn [step].
  - destruct (is_unauthorized response && negb (skipAuth config)) eqn:Hc.
    + unfold handleTokenExpiration_begin. rewrite Hrt.
      by destruct (without_refresh_token_cleared (world l))
        as (w' & t & -> & ? & ?).
    + by destruct (responseRejected_frame unreachable_handler (world l)
                     config response Hc) as (ts & e & ->).
  - by rewrite Hnone, lookup_nil.
Qed.

Lemma run_stays_cleared env : ∀ evs l,
  authToken (world l) = None →
  getItem "refresh_token" (world l) = None →
  refreshing l = [] →
  authToken (world (run env l evs)) = None.
Proof.
  induction evs as [|ev evs IH]; intros l Htok Hrt Hnone; [done|].
  cbn [run fold_left].
  destruct (step_stays_cleared env l ev) as (? & ? & ?); try done.
  by apply IH.
Qed.

End UnauthorizedFacts.

(** C3, as the code has it. In a browser, when a request made without
    [skipAuth] is answered 401 and the refresh token is missing (or empty),
    or the issuer rejects the refresh call, the handler leaves the session
    cleared: no token in memory, no [access_token] and no [refresh_token]
    in [localStorage], the page sent to [/auth/login]. The failed request
    has gone out once and is not sent again (at most the refresh call
    follows it), its promise carries no response, and the requests made
    from the state the handler leaves go through the request interceptor
    without a token attached. With no other refresh call in flight this
    lasts: whatever requests fail afterwards, and however, no token is
    attached again. *)
Theorem refresh_failure_clears_session :
  ∀ (env : Api.Env) (w : Api.World) (b : Api.Browser)
    (config : Api.Config) (r : Api.Response),
    Api.window w = Some b →
    Api.skipAuth config = false →
    Api.server env (length (Api.sent w)) (Api.dispatch env w config).2
    = Api.Replied r →
    Api.status r = 401%Z →
    (Js.truthy (Api.localStorage b !! "refresh_token") = false
     ∨ ∀ c, Api.is_refresh_call c = true →
            Api.accepted (Api.server env (S (length (Api.sent w))) c)
            = false) →
    ∃ w' rest,
      Api.request env w config = (w', Api.Fulfilled None)
      ∧ Api.signed_out w'
      ∧ Api.sent w'
        = (Api.sent w ++ (Api.dispatch env w config).2 :: rest)%list
      ∧ (length rest ≤ 1)%nat
      ∧ Forall (λ c, Api.is_refresh_call c = true ∧ Api.skipAuth c = true)
          rest
      ∧ (∀ configs,
           Forall2 (λ c c', Api.headers c' !! "Authorization"
                            = Api.headers c !! "Authorization")
             configs (Api.dispatch_all env w' configs))
      ∧ ∀ evs e c,
          Api.headers
            (Api.requestInterceptor
               (Api.world (Api.run env (Api.mkLoop w' [] []) evs)) e c)
            !! "Authorization"
          = Api.headers c !! "Authorization".
Proof.
  intros env w b config r Hw Hskip Hreply Hstatus Hfail.
  rewrite (request_unauthorized env w config r) by done.
  set (c' := (Api.dispatch env w config).2).
  set (w1 := (Api.dispatch env w config).1).
  assert (Api.window w1 = Some b) as Hw1 by done.
  assert (Api.sent w1 = (Api.sent w ++ [c'])%list) as Hsent1 by done.
  clearbody w1 c'.
  unfold Api.handleTokenExpiration.
  destruct (Js.truthy (Api.localStorage b !! "refresh_token")) eqn:Ht.
  - destruct Hfail as [|Hrej]; [done|].
    destruct (Api.localStorage b !! "refresh_token") as [rt|] eqn:Hrt;
      [|done].
    apply truthy_Some in Ht.
    rewrite (truthy_begin w1 b rt) by done.
    unfold Api.request_with. cbn [Api.dispatch].
    set (rc := Api.requestInterceptor w1 _ (Api.refreshConfig rt)).
    destruct (is_refresh_call_dispatched w1
                (Api.entropy env (length (Api.sent w1))) rt) as [Hrc Hrcs].
    fold rc in Hrc, Hrcs.
    specialize (Hrej rc Hrc).
    replace (length (Api.sent w1)) with (S (length (Api.sent w)))
      by (rewrite Hsent1, length_app; simpl; lia).
    assert (∃ w2 e, Api.settle Api.unreachable_handler
                      (Api.record_sent rc w1) rc
                      (Api.server env (S (length (Api.sent w))) rc)
                    = (w2, Api.Rejected e)
                    ∧ Api.window w2 = Some b
                    ∧ Api.sent w2 = (Api.sent w ++ [c'; rc])%list)
      as (w2 & e & -> & Hw2 & Hsent2).
    { destruct (settle_frame Api.unreachable_handler (Api.record_sent rc w1)
                  rc (Api.server env (S (length (Api.sent w))) rc) Hrcs Hrej)
        as (ts & e & ->).
      eexists _, _. split; [done|]. split; [done|]. simpl.
      rewrite Hsent1, <- app_assoc. done. }
    cbn [Api.handleTokenExpiration_resume].
    destruct (session_expired_browser w2 b Hw2) as (w' & -> & Hout & Hsent').
    exists w', [rc]. split; [done|]. split; [done|].
    split; [by rewrite Hsent', Hsent2|]. split; [simpl; lia|].
    split; [by constructor|]. split.
    + intros configs. apply dispatch_all_without_token. apply Hout.
    + intros evs e0 c. rewrite requestInterceptor_authorization.
      by rewrite (run_stays_cleared env evs (Api.mkLoop w' [] []))
        by (done || apply Hout).
  - rewrite (truthy_false_begin w1 b) by done.
    unfold Api.without_refresh_token.
    destruct (go_to_login_clear w1 b Hw1) as (w' & -> & Hout & Hsent').
    exists w', []. split; [done|]. split; [done|].
    split; [by rewrite Hsent', Hsent1|]. split; [simpl; lia|].
    split; [constructor|]. split.
    + intros configs. apply dispatch_all_without_token. apply Hout.
    + intros evs e0 c. rewrite requestInterceptor_authorization.
      by rewrite (run_stays_cleared env evs (Api.mkLoop w' [] []))
        by (done || apply Hout).
Qed.

Lemma refresh_failure_clears_session_witness :
  ∃ w' rest,
    Api.request Scenario.rejecting Scenario.signed_in Scenario.list_documents
    = (w', Api.Fulfilled None)
    ∧ Api.signed_out w'
    ∧ Api.sent w'
      = (Api.sent Scenario.signed_in
         ++ (Api.dispatch Scenario.rejecting Scenario.signed_in
               Scenario.list_documents).2 :: rest)%list
    ∧ (length rest ≤ 1)%nat
    ∧ Forall (λ c, Api.is_refresh_call c = true ∧ Api.skipAuth c = true)
        rest
    ∧ (∀ configs,
         Forall2 (λ c c', Api.headers c' !! "Authorization"
                          = Api.headers c !! "Authorization")
           configs (Api.dispatch_all Scenario.rejecting w' configs))
    ∧ ∀ evs e c,
        Api.headers
          (Api.requestInterceptor
             (Api.world
                (Api.run Scenario.rejecting (Api.mkLoop w' [] []) evs)) e c)
          !! "Authorization"
        = Api.headers c !! "Authorization".
Proof.
  apply (refresh_failure_clears_session Scenario.rejecting Scenario.signed_in
           Scenario.signed_in_browser Scenario.list_documents
           Scenario.expired).
  - reflexivity.
  - reflexivity.
  - reflexivity.
  - reflexivity.
  - right. intros c Hc. simpl. rewrite Hc. reflexivity.
Defined.

(** C3 as stated fails in its last clause. Two requests are answered 401
    and each starts a refresh call of its own. The issuer rejects the first
    call, and the session is cleared; the reply to the second call, which
    was still in flight, then stores a new pair, and the next request
    leaves the request interceptor with [Bearer a2] attached. *)
Lemma cleared_session_counterexample :
  Api.signed_out
    (Api.world
       (Api.run Scenario.renewing (Api.mkLoop Scenario.signed_in [] [])
          [Api.Failed Scenario.list_documents (Some Scenario.expired);
           Api.Failed Scenario.list_documents (Some Scenario.expired);
           Api.RefreshSettled 0 (Api.Replied Scenario.refused)]))
  ∧ ¬ (Api.headers
         (Api.requestInterceptor
            (Api.world
               (Api.run Scenario.renewing
                  (Api.mkLoop Scenario.signed_in [] [])
                  [Api.Failed Scenario.list_documents (Some Scenario.expired);
                   Api.Failed Scenario.list_documents (Some Scenario.expired);
                   Api.RefreshSettled 0 (Api.Replied Scenario.refused);
                   Api.RefreshSettled 0
                     (Api.Replied
                        (Api.mkResponse 200 (Some Scenario.fresh_tokens)))]))
            (Scenario.clock 3) Scenario.list_documents)
         !! "Authorization" = None).
Proof.
  split; [by split|]. vm_compute. discriminate.
Qed.

Lemma attach_iff_token_held_and_not_skipped_witness :
  Api.headers Scenario.list_documents !! "Authorization" = None
  ∧ Api.headers
      (Api.requestInterceptor Scenario.signed_in (Scenario.clock 0)
         Scenario.list_documents) !! "Authorization"
    = Some "Bearer a1".
Proof.
  split; [reflexivity|].
  apply (attach_iff_token_held_and_not_skipped Scenario.renewing
           Scenario.signed_in (Scenario.clock 0) Scenario.list_documents);
    [reflexivity | reflexivity | discriminate | reflexivity].
Defined.

(** C2, as the code has it. In a browser that holds a refresh token, when a
    request made without [skipAuth] is answered 401 and the issuer accepts
    the refresh call, answering with an object, the token in memory and the
    [access_token] and [refresh_token] entries of [localStorage] become
    those of the refresh reply; the client sends the refresh call and
    nothing after it, so the failed request is not sent again, and its
    promise is fulfilled without a response. *)
Theorem refresh_success_updates_tokens_without_retry :
  ∀ (env : Api.Env) (w : Api.World) (b : Api.Browser)
    (config : Api.Config) (r rr : Api.Response) (rt : string)
    (tokens : Js.Json),
    Api.window w = Some b →
    Api.skipAuth config = false →
    Api.server env (length (Api.sent w)) (Api.dispatch env w config).2
    = Api.Replied r →
    Api.status r = 401%Z →
    Api.localStorage b !! "refresh_token" = Some rt →
    rt ≠ "" →
    Api.server env (S (length (Api.sent w)))
      (Api.dispatch env (Api.dispatch env w config).1
         (Api.refreshConfig rt)).2
    = Api.Replied rr →
    Api.validateStatus (Api.status rr) = true →
    Api.data rr = Some tokens →
    ∃ w',
      Api.request env w config = (w', Api.Fulfilled None)
      ∧ Api.authToken w' = tokens !! "access_token"
      ∧ Api.getItem "access_token" w'
        = Some (Js.to_string (tokens !! "access_token"))
      ∧ Api.getItem "refresh_token" w'
        = Some (Js.to_string (tokens !! "refresh_token"))
      ∧ Api.sent w'
        = (Api.sent w
           ++ [(Api.dispatch env w config).2;
               (Api.dispatch env (Api.dispatch env w config).1
                  (Api.refreshConfig rt)).2])%list.
Proof.
  intros env w b config r rr rt tokens Hw Hskip Hreply Hstatus Hrt Hne
    Hrefresh Hok Hbody.
  rewrite (request_unauthorized env w config r) by done.
  set (c' := (Api.dispatch env w config).2) in *.
  set (w1 := (Api.dispatch env w config).1) in *.
  assert (Api.window w1 = Some b) as Hw1 by done.
  assert (Api.sent w1 = (Api.sent w ++ [c'])%list) as Hsent1 by done.
  clearbody w1 c'.
  unfold Api.handleTokenExpiration.
  rewrite (truthy_begin w1 b rt) by done.
  unfold Api.request_with.
  replace (length (Api.sent w1)) with (S (length (Api.sent w)))
    by (rewrite Hsent1, length_app; simpl; lia).
  destruct (Api.dispatch env w1 (Api.refreshConfig rt)) as [w2 rc] eqn:Hd.
  cbn [snd] in Hrefresh. rewrite Hrefresh. unfold Api.settle. rewrite Hok.
  cbn [Api.dispatch] in Hd. injection Hd as <- Hrc.
  cbn [Api.handleTokenExpiration_resume]. rewrite Hbody.
  cbn [Api.handler_outcome].
  eexists. split; [reflexivity|].
  unfold Api.getItem, Api.saveAuthToken, Api.with_storage, Api.with_authToken,
    Api.record_sent. cbn [Api.authToken Api.window Api.sent Api.toasts].
  rewrite Hw1. cbn [Api.localStorage].
  split; [done|]. split.
  { rewrite lookup_insert_ne by done. by rewrite lookup_insert_eq. }
  split; [by rewrite lookup_insert_eq|].
  cbn [snd]. by rewrite Hrc, Hsent1, <- app_assoc.
Qed.

Lemma refresh_success_updates_tokens_without_retry_witness :
  ∃ w',
    Api.request Scenario.renewing Scenario.signed_in Scenario.list_documents
    = (w', Api.Fulfilled None)
    ∧ Api.authToken w' = Some "a2"
    ∧ Api.getItem "access_token" w' = Some "a2"
    ∧ Api.getItem "refresh_token" w' = Some "r2"
    ∧ Api.sends_to "/api/v1/documents" w' = 1%nat.
Proof.
  destruct (refresh_success_updates_tokens_without_retry Scenario.renewing
              Scenario.signed_in Scenario.signed_in_browser
              Scenario.list_documents Scenario.expired
              (Api.mkResponse 200 (Some Scenario.fresh_tokens)) "r1"
              Scenario.fresh_tokens)
    as (w' & Hrun & Htok & Hacc & Href & Hsent);
    [reflexivity | reflexivity | reflexivity | reflexivity | reflexivity
    | discriminate | reflexivity | reflexivity | reflexivity |].
  exists w'. split; [exact Hrun|]. split; [exact Htok|].
  split; [exact Hacc|]. split; [exact Href|].
  unfold Api.sends_to. rewrite Hsent. reflexivity.
Defined.

(** C2 as stated fails: against an API that would accept the renewed token,
    the refresh succeeds, yet the failed request has gone out once, not
    twice, and the caller gets an exception, not the result of a retry. *)
Lemma retry_after_refresh_counterexample :
  Api.authToken
    (Api.get Scenario.renewing Scenario.signed_in "/api/v1/documents"
       Api.no_config).1 = Some "a2"
  ∧ ¬ (Api.sends_to "/api/v1/documents"
         (Api.get Scenario.renewing Scenario.signed_in "/api/v1/documents"
            Api.no_config).1 = 2%nat
       ∧ ∃ d, (Api.get Scenario.renewing Scenario.signed_in
                 "/api/v1/documents" Api.no_config).2 = Api.Returned d).
Proof.
  split; [reflexivity|]. intros [Hsends _]. vm_compute in Hsends.
  discriminate.
Qed.

(** ** Several 401 replies before any refresh settles *)

Section SingleFlightFacts.
Import Js Api.

Lemma refresh_calls_record c w :
  refresh_calls (record_sent c w)
  = (refresh_calls w + if is_refresh_call c then 1 else 0)%nat.
Proof.
  unfold refresh_calls, record_sent. cbn [sent].
  rewrite List.filter_app, length_app. simpl.
  by destruct (is_refresh_call c).
Qed.

(** Each 401 reply finds the refresh token where it was and starts a refresh
    call of its own. *)
Lemma step_unauthorized env l b rt config r :
  window (world l) = Some b →
  localStorage b !! "refresh_token" = Some rt →
  rt ≠ "" →
  skipAuth config = false →
  status r = 401%Z →
  ∃ rc, step env l (Failed config (Some r))
        = mkLoop (record_sent rc (world l)) (refreshing l ++ [rc])
            (delivered l)
        ∧ is_refresh_call rc = true.
Proof.
  intros Hw Hrt Hne Hskip Hstatus. cbn [step is_unauthorized].
  rewrite Hstatus, Hskip. cbn [Z.eqb Pos.eqb andb negb].
  rewrite (truthy_begin (world l) b rt) by done.
  cbn [dispatch]. eexists. split; [reflexivity|].
  apply is_refresh_call_dispatched.
Qed.

Lemma run_unauthorized env b rt r :
  localStorage b !! "refresh_token" = Some rt →
  rt ≠ "" →
  status r = 401%Z →
  ∀ configs l,
    window (world l) = Some b →
    Forall (λ c, skipAuth c = false) configs →
    let l' := run env l (map (λ c, Failed c (Some r)) configs) in
    refresh_calls (world l')
    = (refresh_calls (world l) + length configs)%nat
    ∧ length (refreshing l')
      = (length (refreshing l) + length configs)%nat
    ∧ delivered l' = delivered l.
Proof.
  intros Hrt Hne Hstatus.
  induction configs as [|c configs IH]; intros l Hw Hall; cbv zeta.
  - simpl. repeat split; lia.
  - apply Forall_cons in Hall as [Hc Hall].
    cbn [map run fold_left].
    destruct (step_unauthorized env l b rt c r) as (rc & -> & Hrc);
      try done.
    fold (run env (mkLoop (record_sent rc (world l)) (refreshing l ++ [rc])
                     (delivered l)) (map (λ c, Failed c (Some r)) configs)).
    destruct (IH (mkLoop (record_sent rc (world l)) (refreshing l ++ [rc])
                    (delivered l))) as (H1 & H2 & H3); [done | done |].
    rewrite H1, H2, H3. cbn [world refreshing delivered].
    rewrite refresh_calls_record, Hrc, length_app. simpl.
    repeat split; lia.
Qed.

(** One request on its own: the handler run in one piece is the two events
    run back to back. *)
Lemma handler_is_one_interleaving env w config r w' rc :
  skipAuth config = false →
  status r = 401%Z →
  handleTokenExpiration_begin w = Awaiting w' rc →
  world (run env (mkLoop w [] [])
           [Failed config (Some r);
            RefreshSettled 0
              (server env (length (sent w)) (dispatch env w' rc).2)])
  = (handleTokenExpiration env w).1.
Proof.
  intros Hskip Hstatus Hbegin. unfold handleTokenExpiration.
  cbn [run fold_left step is_unauthorized world].
  rewrite Hstatus, Hskip, Hbegin. cbn [Z.eqb Pos.eqb andb negb].
  apply begin_Awaiting in Hbegin as (-> & rt & _ & _ & ->).
  unfold request_with. cbn [dispatch refreshing world snd].
  cbn [lookup list_lookup app].
  destruct (settle _ _ _ _) as [w1 s1].
  by destruct (handleTokenExpiration_resume w1 s1).
Qed.

End SingleFlightFacts.

(** C1, as the code has it. In a browser that holds a refresh token, N
    requests made without [skipAuth] whose 401 replies arrive before any
    refresh call settles start N refresh calls, one per reply: all N are in
    flight together and none of the N callers has been answered yet. *)
Theorem each_unauthorized_reply_starts_a_refresh :
  ∀ (env : Api.Env) (w : Api.World) (b : Api.Browser) (rt : string)
    (r : Api.Response) (configs : list Api.Config),
    Api.window w = Some b →
    Api.localStorage b !! "refresh_token" = Some rt →
    rt ≠ "" →
    Api.status r = 401%Z →
    Forall (λ c, Api.skipAuth c = false) configs →
    Api.refresh_calls
      (Api.world (Api.run env (Api.mkLoop w [] [])
                    (map (λ c, Api.Failed c (Some r)) configs)))
    = (Api.refresh_calls w + length configs)%nat
    ∧ length (Api.refreshing
                (Api.run env (Api.mkLoop w [] [])
                   (map (λ c, Api.Failed c (Some r)) configs)))
      = length configs
    ∧ Api.delivered (Api.run env (Api.mkLoop w [] [])
                       (map (λ c, Api.Failed c (Some r)) configs)) = [].
Proof.
  intros env w b rt r configs Hw Hrt Hne Hstatus Hall.
  apply (run_unauthorized env b rt r Hrt Hne Hstatus configs
           (Api.mkLoop w [] []) Hw Hall).
Qed.

Lemma each_unauthorized_reply_starts_a_refresh_witness :
  Api.refresh_calls
    (Api.world
       (Api.run Scenario.renewing (Api.mkLoop Scenario.signed_in [] [])
          (map (λ c, Api.Failed c (Some Scenario.expired))
             [Scenario.list_documents; Scenario.list_documents;
              Scenario.list_documents])))
  = 3%nat.
Proof.
  apply (each_unauthorized_reply_starts_a_refresh Scenario.renewing
           Scenario.signed_in Scenario.signed_in_browser "r1"
           Scenario.expired
           [Scenario.list_documents; Scenario.list_documents;
            Scenario.list_documents]);
    [reflexivity | reflexivity | discriminate | reflexivity
    | repeat constructor].
Defined.

(** C1 as stated fails: two requests answered 401 while no refresh has
    settled make the client send two refresh calls, not one. *)
Lemma single_refresh_counterexample :
  ¬ (Api.refresh_calls
       (Api.world
          (Api.run Scenario.renewing (Api.mkLoop Scenario.signed_in [] [])
             [Api.Failed Scenario.list_documents (Some Scenario.expired);
              Api.Failed Scenario.list_documents (Some Scenario.expired)]))
     = 1%nat).
Proof. vm_compute. discriminate. Qed.

(** Two refreshes of one session can end differently: the first renews the
    pair, the second, turned down, clears the session the first renewed. *)
Example second_refresh_clears_renewed_session :
  Api.authToken
    (Api.world
       (Api.run Scenario.renewing (Api.mkLoop Scenario.signed_in [] [])
          [Api.Failed Scenario.list_documents (Some Scenario.expired);
           Api.Failed Scenario.list_documents (Some Scenario.expired);
           Api.RefreshSettled 0
             (Api.Replied (Api.mkResponse 200 (Some Scenario.fresh_tokens)))]))
  = Some "a2"
  ∧ Api.authToken
      (Api.world
         (Api.run Scenario.renewing (Api.mkLoop Scenario.signed_in [] [])
            [Api.Failed Scenario.list_documents (Some Scenario.expired);
             Api.Failed Scenario.list_documents (Some Scenario.expired);
             Api.RefreshSettled 0
               (Api.Replied (Api.mkResponse 200 (Some Scenario.fresh_tokens)));
             Api.RefreshSettled 0 (Api.Replied Scenario.expired)]))
    = None.
Proof. split; reflexivity. Qed.

(** ** Correlation ids *)

Section CorrelationFacts.
Import Js Api.

Lemma list_ascii_of_string_app (s1 s2 : string) :
  list_ascii_of_string (s1 +:+ s2)
  = (list_ascii_of_string s1 ++ list_ascii_of_string s2)%list.
Proof. induction s1 as [|a s1 IH]; simpl; [done | by rewrite IH]. Qed.

Lemma pretty_N_char_not_dash x : pretty_N_char x ≠ "-"%char.
Proof. unfold pretty_N_char. by repeat case_match. Qed.

(** The decimal digits are put in front of the accumulator; none of them is
    a dash. *)
Lemma pretty_N_go_digits x : ∀ s,
  ∃ ds, list_ascii_of_string (pretty_N_go x s)
        = (ds ++ list_ascii_of_string s)%list
        ∧ ¬ In "-"%char ds.
Proof.
  induction (N.lt_wf_0 x) as [x _ IH]. intros s.
  destruct (decide (0 < x)%N) as [Hpos|Hzero].
  - rewrite pretty_N_go_step by done.
    destruct (IH (x `div` 10)%N (N.div_lt x 10 Hpos eq_refl)
                (String (pretty_N_char (x `mod` 10)) s)) as (ds & -> & Hds).
    exists (ds ++ [pretty_N_char (x `mod` 10)])%list. split.
    + by rewrite <- app_assoc.
    + rewrite in_app_iff. intros [H | [H | []]]; [done|].
      by apply pretty_N_char_not_dash in H.
  - assert (x = 0%N) as -> by lia. rewrite pretty_N_go_0.
    exists []. split; [done | intros []].
Qed.

Lemma pretty_N_no_dash (x : N) :
  ¬ In "-"%char (list_ascii_of_string (pretty x)).
Proof.
  unfold pretty, pretty_N. destruct (decide (x = 0%N)).
  - simpl. intros [H | []]. discriminate.
  - destruct (pretty_N_go_digits x "") as (ds & -> & Hds).
    by rewrite app_nil_r.
Qed.

Lemma split_at_first_dash (d1 : list ascii) : ∀ d2 r1 r2,
  ¬ In "-"%char d1 → ¬ In "-"%char d2 →
  (d1 ++ "-"%char :: r1 = d2 ++ "-"%char :: r2)%list →
  d1 = d2 ∧ r1 = r2.
Proof.
  induction d1 as [|a d1 IH]; intros [|a' d2] r1 r2 H1 H2 Heq;
    simpl in *.
  - by injection Heq as ->.
  - injection Heq as <- _. tauto.
  - injection Heq as -> _. tauto.
  - injection Heq as -> Heq. apply IH in Heq as [-> ->]; tauto.
Qed.

Lemma list_ascii_of_string_inj (s1 s2 : string) :
  list_ascii_of_string s1 = list_ascii_of_string s2 → s1 = s2.
Proof.
  intros H. rewrite <- (string_of_list_ascii_of_string s1),
    <- (string_of_list_ascii_of_string s2). by rewrite H.
Qed.

Lemma generateCorrelationId_inj e1 e2 :
  generateCorrelationId e1 = generateCorrelationId e2 → e1 = e2.
Proof.
  unfold generateCorrelationId. intros H.
  apply (f_equal list_ascii_of_string) in H.
  rewrite !list_ascii_of_string_app in H. simpl in H.
  apply split_at_first_dash in H as [Hnow Hrandom];
    auto using pretty_N_no_dash.
  apply list_ascii_of_string_inj, (inj pretty) in Hnow.
  apply list_ascii_of_string_inj in Hrandom.
  destruct e1, e2; simpl in *; congruence.
Qed.

End CorrelationFacts.

(** C8, as the code has it. Every request leaves the request interceptor
    with an [X-Correlation-ID] header, made at that moment from the clock
    and the random source, whatever header the config had before. Sending
    again the config that went out first (the one an error carries) gives it
    a new identifier, equal to the first only if the clock and the random
    source read the same both times. *)
Theorem correlation_id_is_per_send :
  ∀ (w1 w2 : Api.World) (e1 e2 : Api.Entropy) (config : Api.Config),
    Api.headers (Api.requestInterceptor w1 e1 config) !! "X-Correlation-ID"
    = Some (Api.generateCorrelationId e1)
    ∧ Api.headers
        (Api.requestInterceptor w2 e2 (Api.requestInterceptor w1 e1 config))
        !! "X-Correlation-ID"
      = Some (Api.generateCorrelationId e2)
    ∧ (Api.headers
         (Api.requestInterceptor w2 e2 (Api.requestInterceptor w1 e1 config))
         !! "X-Correlation-ID"
       = Api.headers (Api.requestInterceptor w1 e1 config)
           !! "X-Correlation-ID"
       ↔ e1 = e2).
Proof.
  intros w1 w2 e1 e2 config. rewrite !requestInterceptor_correlation.
  split; [done|]. split; [done|]. split.
  - intros [= H]. symmetry. by apply generateCorrelationId_inj.
  - by intros ->.
Qed.

(** C8 as stated fails: the request sent first and the same request sent
    again a millisecond later carry different correlation ids. *)
Lemma shared_correlation_id_counterexample :
  ¬ (Api.headers
       (Api.requestInterceptor Scenario.signed_in (Scenario.clock 1)
          (Api.requestInterceptor Scenario.signed_in (Scenario.clock 0)
             Scenario.list_documents)) !! "X-Correlation-ID"
     = Api.headers
         (Api.requestInterceptor Scenario.signed_in (Scenario.clock 0)
            Scenario.list_documents) !! "X-Correlation-ID").
Proof. vm_compute. discriminate. Qed.

Example correlation_id_format :
  Api.generateCorrelationId (Scenario.clock 0) = "1700000000000-k3j9x0q2z".
Proof. reflexivity. Qed.

(** ** [login] *)

(** C9, as the code has it. Whenever [login] throws, the store it leaves
    has [user] and [token] null and [isAuthenticated] false, whatever
    session it held before; [isLoading] is false, [error] holds the detail
    of the thrown error's response when it has a non-empty one and [Login
    failed] otherwise, and the error thrown is the one the credential
    exchange threw or, after a successful exchange, the one the user-info
    fetch threw (or, when the exchange returned [null], the one raised by
    reading the access token off it). *)
Theorem login_failure_clears_store :
  ∀ (env : Api.Env) (w w' : Api.World) (s s' : AuthStore.AuthState)
    (credentials : AuthStore.UserLogin) (e : Api.Error),
    AuthStore.login env w s credentials = (w', s', Some e) →
    AuthStore.user s' = None
    ∧ AuthStore.token s' = None
    ∧ AuthStore.isAuthenticated s' = false
    ∧ AuthStore.isLoading s' = false
    ∧ AuthStore.error s' = Some (AuthStore.errorMessage e)
    ∧ (∀ c r body d, e = Api.AxiosError c (Some r) →
                     Api.data r = Some body →
                     body !! "detail" = Some d → d ≠ "" →
                     AuthStore.error s' = Some d)
    ∧ ((Api.post env w "/api/v1/auth/login"
          (<["password" := AuthStore.password credentials]>
             {[ "username" := AuthStore.username credentials ]})
          AuthStore.form_config).2 = Api.Threw e
       ∨ ((Api.post env w "/api/v1/auth/login"
             (<["password" := AuthStore.password credentials]>
                {[ "username" := AuthStore.username credentials ]})
             AuthStore.form_config).2 = Api.Returned None
          ∧ e = Api.TypeError
                  "Cannot read properties of null (reading 'access_token')")
       ∨ ∃ w1 tokenResponse,
           Api.post env w "/api/v1/auth/login"
             (<["password" := AuthStore.password credentials]>
                {[ "username" := AuthStore.username credentials ]})
             AuthStore.form_config = (w1, Api.Returned (Some tokenResponse))
           ∧ (Api.get env
                (Api.setAuthToken (tokenResponse !! "access_token") w1)
                "/api/v1/auth/me" Api.no_config).2 = Api.Threw e).
Proof.
  intros env w w' s s' credentials e. unfold AuthStore.login.
  assert (∀ s0, let s1 := AuthStore.login_failed e s0 in
            AuthStore.user s1 = None
            ∧ AuthStore.token s1 = None
            ∧ AuthStore.isAuthenticated s1 = false
            ∧ AuthStore.isLoading s1 = false
            ∧ AuthStore.error s1 = Some (AuthStore.errorMessage e)
            ∧ (∀ c r body d, e = Api.AxiosError c (Some r) →
                 Api.data r = Some body →
                 body !! "detail" = Some d → d ≠ "" →
                 AuthStore.error s1 = Some d)) as Hfailed.
  { intros s0. cbv zeta. repeat split.
    intros c r body d -> Hbody Hd Hne. cbn.
    unfold AuthStore.errorMessage. cbn.
    rewrite Hbody. cbn. rewrite Hd. cbn.
    apply String.eqb_neq in Hne. by rewrite Hne. }
  destruct (Api.post env w _ _ _) as [w1 [[tokenResponse|]|e1]].
  - destruct (Api.get env _ _ _) as [w3 [u|e3]] eqn:Hget.
    + intros [=].
    + intros [= <- <- <-].
      destruct (Hfailed (AuthStore.set
                           (AuthStore.mkPatch None None None (Some true)
                              (Some None)) s))
        as (? & ? & ? & ? & ? & ?).
      repeat split; try assumption. right. right.
      exists w1, tokenResponse. split; [done|]. by rewrite Hget.
  - intros [= <- <- <-].
    destruct (Hfailed (AuthStore.set
                         (AuthStore.mkPatch None None None (Some true)
                            (Some None)) s))
      as (? & ? & ? & ? & ? & ?).
    repeat split; try assumption. right. by left.
  - intros [= <- <- <-].
    destruct (Hfailed (AuthStore.set
                         (AuthStore.mkPatch None None None (Some true)
                            (Some None)) s))
      as (? & ? & ? & ? & ? & ?).
    repeat split; try assumption. by left.
Qed.

Lemma login_failure_clears_store_witness :
  AuthStore.user
    (AuthStore.login Scenario.refusing Scenario.signed_in
       Scenario.authenticated Scenario.alice).1.2 = None
  ∧ AuthStore.token
      (AuthStore.login Scenario.refusing Scenario.signed_in
         Scenario.authenticated Scenario.alice).1.2 = None
  ∧ AuthStore.isAuthenticated
      (AuthStore.login Scenario.refusing Scenario.signed_in
         Scenario.authenticated Scenario.alice).1.2 = false
  ∧ AuthStore.isLoading
      (AuthStore.login Scenario.refusing Scenario.signed_in
         Scenario.authenticated Scenario.alice).1.2 = false
  ∧ AuthStore.error
      (AuthStore.login Scenario.refusing Scenario.signed_in
         Scenario.authenticated Scenario.alice).1.2 = Some "Inactive user".
Proof.
  destruct (AuthStore.login Scenario.refusing Scenario.signed_in
              Scenario.authenticated Scenario.alice)
    as [[w' s'] thrown] eqn:Hrun.
  destruct thrown as [e|]; [|vm_compute in Hrun; discriminate].
  destruct (login_failure_clears_store Scenario.refusing Scenario.signed_in
              w' Scenario.authenticated s' Scenario.alice e Hrun)
    as (Hu & Ht & Ha & Hl & He & _).
  cbn [fst snd]. repeat split; try assumption.
  rewrite He. vm_compute in Hrun. injection Hrun as _ _ <-. reflexivity.
Defined.

(** C9 as stated fails in its clause on the error detail. A login that the
    server answers 401 with a reason goes through the token-expiration
    handler, whose interceptor swallows the reply: [post] throws a
    [TypeError], and the store records [Login failed], not the reason the
    server gave. *)
Lemma login_detail_counterexample :
  Api.server Scenario.wrong_password 0
    (Api.dispatch Scenario.wrong_password Scenario.signed_in
       (Api.merge_config "post" "/api/v1/auth/login"
          (<["password" := "Passw0rd"]> {[ "username" := "alice" ]})
          AuthStore.form_config)).2
  = Api.Replied
      (Api.mkResponse 401
         (Some {[ "detail" := "Incorrect username or password" ]}))
  ∧ (AuthStore.login Scenario.wrong_password Scenario.signed_in
       Scenario.authenticated Scenario.alice).2 ≠ None
  ∧ ¬ (AuthStore.error
         (AuthStore.login Scenario.wrong_password Scenario.signed_in
            Scenario.authenticated Scenario.alice).1.2
       = Some "Incorrect username or password").
Proof.
  split; [reflexivity|]. split; vm_compute; discriminate.
Qed.

(** Without a reply there is no detail to record either. *)
Example login_without_reply :
  AuthStore.error
    (AuthStore.login (Api.mkEnv (λ _ _, Api.NoReply) Scenario.clock)
       Scenario.signed_in Scenario.authenticated Scenario.alice).1.2
  = Some "Login failed".
Proof. reflexivity. Qed.

(** ** Ratings in the [queries] table *)

Section SchemaFacts.
Import Schema.

Lemma user_rating_check_range r v :
  check_passes (user_rating_check r) = true →
  user_rating r = Some v → (1 ≤ v ≤ 5)%Z.
Proof.
  unfold user_rating_check. intros Hcheck Hv. rewrite Hv in Hcheck.
  simpl in Hcheck.
  destruct (1 <=? v)%Z eqn:H1; destruct (v <=? 5)%Z eqn:H5;
    simpl in Hcheck; try discriminate. lia.
Qed.

Lemma row_accepted_rating t r v :
  row_accepted t r = true → user_rating r = Some v → (1 ≤ v ≤ 5)%Z.
Proof.
  unfold row_accepted. rewrite !andb_true_iff.
  intros [[_ Hcheck] _]. by apply user_rating_check_range.
Qed.

Lemma execute_ratings t s :
  ratings_in_range t → ratings_in_range (execute t s).
Proof.
  intros Ht. destruct s as [r | i f | i]; cbn [execute].
  - destruct (t !! id r); [done|].
    destruct (row_accepted t r) eqn:Hacc; [|done].
    intros j r' v Hj Hv. destruct (decide (id r = j)) as [<-|Hne].
    + rewrite lookup_insert_eq in Hj. injection Hj as <-.
      by eapply row_accepted_rating.
    + rewrite lookup_insert_ne in Hj by done. by eapply Ht.
  - destruct (t !! i) as [r|]; [|done]. cbv zeta.
    destruct (_ && row_accepted (delete i t) (f r)) eqn:Hacc; [|done].
    apply andb_true_iff in Hacc as [_ Hacc].
    intros j r' v Hj Hv. destruct (decide (id (f r) = j)) as [<-|Hne].
    + rewrite lookup_insert_eq in Hj. injection Hj as <-.
      by eapply row_accepted_rating.
    + rewrite lookup_insert_ne in Hj by done.
      apply lookup_delete_Some in Hj as [_ Hj]. by eapply Ht.
  - destruct (referenced t i); [done|].
    intros j r v Hj Hv. apply lookup_delete_Some in Hj as [_ Hj].
    by eapply Ht.
Qed.

End SchemaFacts.

(** C7. Whatever statements are run against the [queries] table, starting
    from the empty table the script creates, a row's [user_rating], when it
    is not NULL, is an integer from 1 to 5. *)
Theorem stored_ratings_between_1_and_5 :
  ∀ (statements : list Schema.Statement) (i : Z) (r : Schema.Row) (v : Z),
    Schema.execute_all ∅ statements !! i = Some r →
    Schema.user_rating r = Some v →
    (1 ≤ v ≤ 5)%Z.
Proof.
  intros statements.
  assert (Schema.ratings_in_range (Schema.execute_all ∅ statements)) as H.
  { unfold Schema.execute_all.
    assert (Schema.ratings_in_range (∅ : gmap Z Schema.Row)) as H0.
    { intros i r v Hi. by rewrite lookup_empty in Hi. }
    revert H0. generalize (∅ : gmap Z Schema.Row).
    induction statements as [|s ss IH]; intros t Ht; [done|].
    simpl. apply IH. by apply execute_ratings. }
  exact H.
Qed.

Lemma stored_ratings_between_1_and_5_witness :
  Schema.execute_all ∅ [Schema.Insert (Scenario.question (Some 4%Z))] !! 1%Z
  = Some (Scenario.question (Some 4%Z))
  ∧ (1 ≤ 4 ≤ 5)%Z.
Proof.
  split; [reflexivity|].
  apply (stored_ratings_between_1_and_5
           [Schema.Insert (Scenario.question (Some 4%Z))] 1%Z
           (Scenario.question (Some 4%Z)) 4%Z);
    reflexivity.
Defined.

Example rating_6_is_not_stored :
  Schema.execute_all ∅ [Schema.Insert (Scenario.question (Some 6%Z))] = ∅.
Proof. reflexivity. Qed.

Example rating_0_is_not_stored :
  Schema.execute_all ∅ [Schema.Insert (Scenario.question (Some 0%Z))] = ∅.
Proof. reflexivity. Qed.

Example unrated_is_stored :
  Schema.execute_all ∅ [Schema.Insert (Scenario.question None)] !! 1%Z
  = Some (Scenario.question None).
Proof. reflexivity. Qed.

Example update_to_9_is_refused :
  Schema.execute_all ∅
    [Schema.Insert (Scenario.question None);
     Schema.Update 1 (Scenario.rerate (Some 9%Z))] !! 1%Z
  = Some (Scenario.question None).
Proof. reflexivity. Qed.

(** ** Documents: status and external reference *)

Section LifecycleFacts.
Import Lifecycle.

Lemma reference_present_iff d :
  reference_present d = true
  ↔ ∃ reference, notebooklm_document_id d = Some reference
                 ∧ reference ≠ "".
Proof.
  unfold reference_present.
  destruct (notebooklm_document_id d) as [reference|].
  - rewrite negb_true_iff, String.eqb_neq.
    split; [eauto | by intros (? & [= <-] & ?)].
  - split; [done | by intros (? & ? & ?)].
Qed.

Lemma absent_not_present d :
  notebooklm_document_id d = None → reference_present d = false.
Proof. unfold reference_present. by intros ->. Qed.

Lemma invariant_holds_coupled d :
  invariant_holds d = true ↔ status_matches_reference d.
Proof.
  unfold invariant_holds, status_matches_reference.
  rewrite <- reference_present_iff.
  pose proof (absent_not_present d) as Habsent.
  destruct (processing_status d); rewrite ?bool_decide_eq_true;
    destruct (reference_present d); cbn [negb];
    intuition (discriminate || congruence).
Qed.

Lemma commit_coupled s d : all_coupled s → all_coupled (commit s d).
Proof.
  intros Hs. unfold commit. destruct (invariant_holds d) eqn:Hd; [|done].
  intros i d' Hi. cbn [documents] in Hi.
  destruct (decide (id d = i)) as [<-|Hne].
  - rewrite lookup_insert_eq in Hi. injection Hi as <-.
    by apply invariant_holds_coupled.
  - rewrite lookup_insert_ne in Hi by done. by eapply Hs.
Qed.

Lemma perform_coupled limits s c :
  all_coupled s → all_coupled (perform limits s c).
Proof.
  intros Hs. destruct c; cbn [perform].
  - unfold intake. case_match; [|done]. cbn [fst].
    intros i d Hi. cbn [documents] in Hi.
    by eapply (commit_coupled s).
  - unfold hand_off. repeat case_match; auto using commit_coupled.
  - unfold advance. repeat case_match; auto using commit_coupled.
  - unfold recordQuery. repeat case_match; cbn [fst];
      auto using commit_coupled.
  - unfold retire. repeat case_match; cbn [fst]; auto using commit_coupled.
Qed.

Lemma perform_all_coupled limits : ∀ calls s,
  all_coupled s → all_coupled (perform_all limits s calls).
Proof.
  induction calls as [|c calls IH]; intros s Hs; [done|].
  simpl. apply IH. by apply perform_coupled.
Qed.

End LifecycleFacts.

(** C5. Every document the lifecycle manager holds, after any calls from
    the empty store, has status [completed] exactly when its external
    reference is present and non-empty, and no reference when its status is
    [processing] or [failed]; and every call keeps this true of every
    document of a store of which it was true. *)
Theorem status_and_reference_stay_coupled :
  ∀ (limits : Lifecycle.Limits),
    (∀ (calls : list Lifecycle.Call) (i : Z) (d : Lifecycle.Document),
       Lifecycle.documents (Lifecycle.perform_all limits Lifecycle.empty calls)
         !! i = Some d →
       Lifecycle.status_matches_reference d)
    ∧ (∀ (s : Lifecycle.Store) (c : Lifecycle.Call),
         Lifecycle.all_coupled s →
         Lifecycle.all_coupled (Lifecycle.perform limits s c)).
Proof.
  intros limits. split.
  - intros calls. apply perform_all_coupled.
    intros i d Hi. cbn in Hi. by rewrite lookup_empty in Hi.
  - intros s c. apply perform_coupled.
Qed.

Lemma status_and_reference_stay_coupled_witness :
  Lifecycle.documents
    (Lifecycle.perform_all Scenario.limits Lifecycle.empty Scenario.ingestion)
    !! 1%Z = Some Scenario.ingested_report
  ∧ Lifecycle.status_matches_reference Scenario.ingested_report.
Proof.
  split; [reflexivity|].
  apply (proj1 (status_and_reference_stay_coupled Scenario.limits)
           Scenario.ingestion 1%Z Scenario.ingested_report).
  reflexivity.
Defined.

Example query_count_from_0_to_1 :
  Lifecycle.query_count
    <$> Lifecycle.documents
          (Lifecycle.perform_all Scenario.limits Lifecycle.empty
             (Scenario.ingestion
              ++ [Lifecycle.RecordQuery 1 "2025-01-01T00:00:00Z"])%list)
        !! 1%Z
  = Some 1%Z.
Proof. reflexivity. Qed.

Example late_failure_is_ignored :
  Lifecycle.perform_all Scenario.limits Lifecycle.empty
    (Scenario.ingestion
     ++ [Lifecycle.Advance 1 (Lifecycle.IngestionFailed "late")])%list
  = Lifecycle.perform_all Scenario.limits Lifecycle.empty Scenario.ingestion.
Proof. reflexivity. Qed.

Example empty_reference_is_refused :
  Lifecycle.processing_status
    <$> Lifecycle.documents
          (Lifecycle.perform_all Scenario.limits Lifecycle.empty
             [Lifecycle.Intake 7 Scenario.report; Lifecycle.HandOff 1;
              Lifecycle.Advance 1 (Lifecycle.Ingested "")]) !! 1%Z
  = Some Lifecycle.processing.
Proof. reflexivity. Qed.

(** ** Conversations: a child shares its parent's conversation *)

Section OrchestratorFacts.
Import Schema Orchestrator.

Lemma elem_of_conversations (t : gmap Z Row) c :
  c ∈ conversations t
  ↔ ∃ i q, t !! i = Some q ∧ conversation_id q = Some c.
Proof.
  unfold conversations. rewrite elem_of_list_to_set, list_elem_of_omap.
  split.
  - intros ([i q] & Hin & Hc). apply elem_of_map_to_list in Hin. eauto.
  - intros (i & q & Hi & Hc). exists (i, q). split; [|done].
    by apply elem_of_map_to_list.
Qed.

Lemma mint_unused (t : gmap Z Row) i q :
  t !! i = Some q → conversation_id q ≠ Some (mint t).
Proof.
  intros Hi Hc. apply (is_fresh (conversations t)).
  apply elem_of_conversations. eauto.
Qed.

Lemma empty_well_threaded : well_threaded empty.
Proof.
  split.
  - intros i q p Hi. cbn in Hi. by rewrite lookup_empty in Hi.
  - intros i [q Hi]. cbn in Hi. by rewrite lookup_empty in Hi.
Qed.

Lemma create_well_threaded s userId text conversation parent :
  well_threaded s →
  (∀ p, parent = Some p →
        ∃ q, rows s !! p = Some q ∧ conversation = conversation_id q) →
  well_threaded (create s userId text conversation parent).1.
Proof.
  intros [Hthreads Hkeys] Hparent. unfold create. cbn [fst]. split.
  - intros i q p Hi Hp. cbn [rows] in *.
    assert (rows s !! next_id s = None) as Hfree.
    { destruct (rows s !! next_id s) eqn:H; [|done].
      assert (next_id s < next_id s)%Z by (apply Hkeys; eauto). lia. }
    destruct (decide (next_id s = i)) as [<-|Hne].
    + rewrite lookup_insert_eq in Hi. injection Hi as <-. cbn in Hp.
      destruct (Hparent p Hp) as (parent' & Hlook & Hconv).
      exists parent'. split; [|done].
      rewrite lookup_insert_ne; [done|]. intros <-. congruence.
    + rewrite lookup_insert_ne in Hi by done.
      destruct (Hthreads i q p Hi Hp) as (parent' & Hlook & Hconv).
      exists parent'. split; [|done].
      rewrite lookup_insert_ne; [done|]. intros <-. congruence.
  - intros i [q Hi]. cbn [rows next_id] in *.
    destruct (decide (next_id s = i)) as [<-|Hne]; [lia|].
    rewrite lookup_insert_ne in Hi by done.
    assert (i < next_id s)%Z by (apply Hkeys; eauto). lia.
Qed.

(** Rewriting a row in place without touching its thread columns. *)
Lemma rewrite_well_threaded s k r r' :
  well_threaded s →
  rows s !! k = Some r →
  conversation_id r' = conversation_id r →
  parent_query_id r' = parent_query_id r →
  well_threaded (mkStore (<[k := r']> (rows s)) (next_id s)).
Proof.
  intros [Hthreads Hkeys] Hk Hconv Hpar. split.
  - intros i q p Hi Hp. cbn [rows] in *.
    assert (∃ q0, rows s !! i = Some q0
                  ∧ conversation_id q = conversation_id q0
                  ∧ parent_query_id q = parent_query_id q0)
      as (q0 & Hq0 & Hc0 & Hp0).
    { destruct (decide (k = i)) as [<-|Hne].
      - rewrite lookup_insert_eq in Hi. injection Hi as <-. eauto.
      - rewrite lookup_insert_ne in Hi by done. eauto. }
    rewrite Hp0 in Hp.
    destruct (Hthreads i q0 p Hq0 Hp) as (parent & Hlook & Hcp).
    destruct (decide (k = p)) as [<-|Hne].
    + exists r'. rewrite lookup_insert_eq. split; [done|]. congruence.
    + exists parent. rewrite lookup_insert_ne by done. split; [done|].
      congruence.
  - intros i [q Hi]. cbn [rows next_id] in *. apply Hkeys.
    destruct (decide (k = i)) as [<-|Hne]; [eauto|].
    rewrite lookup_insert_ne in Hi by done. eauto.
Qed.

Lemma submit_well_threaded s userId text options :
  well_threaded s → well_threaded (submit s userId text options).1.
Proof.
  intros Hs. unfold submit.
  destruct (parentQueryId options) as [p|].
  - destruct (rows s !! p) as [parent|] eqn:Hp; [|done].
    case_match; [|done].
    pose proof (create_well_threaded s userId text (conversation_id parent)
                  (Some p) Hs) as H'.
    destruct (create s userId text (conversation_id parent) (Some p)).
    cbn [fst] in *. apply H'. intros ? [= <-]. eauto.
  - pose proof (create_well_threaded s userId text
                  (Some match conversationId options with
                        | Some c => c
                        | None => mint (rows s)
                        end) None Hs) as H'.
    cbv zeta. destruct (create s userId text _ None).
    cbn [fst] in *. apply H'. intros ? [=].
Qed.

Lemma perform_well_threaded s c :
  well_threaded s → well_threaded (perform s c).
Proof.
  intros Hs. destruct c as [userId text options | queryId res
                           | queryId userId rating feedback];
    cbn [perform].
  - by apply submit_well_threaded.
  - unfold resolve. destruct (rows s !! queryId) as [r|] eqn:Hr; [|done].
    case_match; [|done]. destruct res;
      by eapply rewrite_well_threaded.
  - unfold rate. destruct (rows s !! queryId) as [r|] eqn:Hr; [|done].
    repeat case_match; cbn [fst]; try done.
    by eapply rewrite_well_threaded.
Qed.

Lemma perform_all_well_threaded : ∀ calls s,
  well_threaded s → well_threaded (perform_all s calls).
Proof.
  induction calls as [|c calls IH]; intros s Hs; [done|].
  simpl. apply IH. by apply perform_well_threaded.
Qed.

End OrchestratorFacts.

(** C6. In every store the orchestrator reaches from the empty one, a query
    whose [parent_query_id] is set has the [conversation_id] of that parent;
    and a query submitted there with no parent and no conversation id is
    stored with a newly minted conversation id that no query of the store
    has. *)
Theorem child_shares_parent_conversation :
  ∀ (calls : list Orchestrator.Call) (userId : Z) (text : string),
    Orchestrator.threads_agree
      (Orchestrator.rows (Orchestrator.perform_all Orchestrator.empty calls))
    ∧ ∃ s' i q c,
        Orchestrator.submit
          (Orchestrator.perform_all Orchestrator.empty calls) userId text
          (Orchestrator.mkOptions None None) = (s', inr i)
        ∧ Orchestrator.rows s' !! i = Some q
        ∧ Schema.parent_query_id q = None
        ∧ Schema.conversation_id q = Some c
        ∧ ∀ j q',
            Orchestrator.rows
              (Orchestrator.perform_all Orchestrator.empty calls) !! j
            = Some q' →
            Schema.conversation_id q' ≠ Some c.
Proof.
  intros calls userId text. split.
  - apply perform_all_well_threaded, empty_well_threaded.
  - set (s := Orchestrator.perform_all Orchestrator.empty calls).
    unfold Orchestrator.submit, Orchestrator.create. cbn.
    eexists _, _, _, _. split; [reflexivity|]. cbn [Orchestrator.rows].
    rewrite lookup_insert_eq. split; [reflexivity|]. cbn.
    split; [reflexivity|]. split; [reflexivity|].
    intros j q'. apply mint_unused.
Qed.

Example follow_up_inherits_conversation :
  Schema.conversation_id
    <$> Orchestrator.rows
          (Orchestrator.perform_all Orchestrator.empty Scenario.conversation)
        !! 2%Z
  = Schema.conversation_id
      <$> Orchestrator.rows
            (Orchestrator.perform_all Orchestrator.empty
               Scenario.conversation) !! 1%Z.
Proof. vm_compute. reflexivity. Qed.

(** ** The utility functions *)

Section EmailFacts.
Import Regex Utils.

Lemma in_ends_Cat r1 r2 c c' :
  In c' (ends (Cat r1 r2) c) ↔ ∃ x, In x (ends r1 c) ∧ In c' (ends r2 x).
Proof. cbn [ends]. apply in_flat_map. Qed.

Lemma in_ends_at_least_Class f n i s c' :
  In c' (ends (at_least n (Class f)) (i, s))
  ↔ ∃ k, (n ≤ k ≤ length s)%nat ∧ forallb f (take k s) = true
         ∧ c' = ((i + k)%nat, drop k s).
Proof.
  unfold at_least. rewrite in_ends_Cat. split.
  - intros (x & Hx & Hc'). apply in_ends_times_Class in Hx as (Hn & Hhead & ->).
    apply in_ends_Star_Class in Hc' as (k & Hk & Htail & ->).
    rewrite length_drop in Hk. exists (n + k)%nat. split; [lia|]. split.
    + by rewrite <- take_take_drop, forallb_app, Hhead, Htail.
    + rewrite drop_drop. f_equal. lia.
  - intros (k & [Hn Hk] & Hall & ->).
    exists ((i + n)%nat, drop n s). split.
    + apply in_ends_times_Class. split; [lia|]. split; [|done].
      apply forallb_forall. intros a Ha. rewrite forallb_forall in Hall.
      apply Hall. apply list_elem_of_In. apply list_elem_of_In in Ha.
      apply elem_of_take in Ha as (j & Hj & Hlt).
      apply elem_of_take. exists j. split; [done | lia].
    + apply in_ends_Star_Class. exists (k - n)%nat.
      rewrite length_drop. split; [lia|]. split.
      * apply forallb_forall. intros a Ha. rewrite forallb_forall in Hall.
        apply Hall. apply list_elem_of_In. apply list_elem_of_In in Ha.
        apply elem_of_take in Ha as (j & Hj & Hlt).
        rewrite lookup_drop in Hj.
        apply elem_of_take. exists (n + j)%nat. split; [done | lia].
      * rewrite drop_drop. f_equal; [lia | f_equal; lia].
Qed.

Lemma in_ends_lit c i s c' :
  In c' (ends (lit c) (i, s)) ↔ ∃ s', s = c :: s' ∧ c' = (S i, s').
Proof.
  unfold lit. rewrite in_ends_Class. split.
  - intros (a & s' & -> & Heq & ->). apply Ascii.eqb_eq in Heq as <-. eauto.
  - intros (s' & -> & ->). exists c, s'. by rewrite Ascii.eqb_refl.
Qed.

(** The pattern between [^] and [$], as a splitting of the input. *)
Lemma email_matches_split (l : list ascii) :
  match ends (Cat (at_least 1 (Class plain))
                (Cat (lit "@")
                   (Cat (at_least 1 (Class plain))
                      (Cat (lit ".")
                         (Cat (at_least 1 (Class plain)) Eos))))) (0%nat, l)
  with [] => false | _ :: _ => true end = true
  ↔ ∃ local head tail,
      l = (local ++ "@"%char :: head ++ "."%char :: tail)%list
      ∧ local ≠ [] ∧ head ≠ [] ∧ tail ≠ []
      ∧ forallb plain local = true ∧ forallb plain head = true
      ∧ forallb plain tail = true.
Proof.
  rewrite nonempty_In. split.
  - intros (c' & Hc').
    apply in_ends_Cat in Hc' as (x1 & H1 & Hc').
    apply in_ends_at_least_Class in H1 as (k1 & Hk1 & Hall1 & ->).
    apply in_ends_Cat in Hc' as (x2 & H2 & Hc').
    apply in_ends_lit in H2 as (s2 & Hs2 & ->).
    apply in_ends_Cat in Hc' as (x3 & H3 & Hc').
    apply in_ends_at_least_Class in H3 as (k2 & Hk2 & Hall2 & ->).
    apply in_ends_Cat in Hc' as (x4 & H4 & Hc').
    apply in_ends_lit in H4 as (s4 & Hs4 & ->).
    apply in_ends_Cat in Hc' as (x5 & H5 & Hc').
    apply in_ends_at_least_Class in H5 as (k3 & Hk3 & Hall3 & ->).
    cbn [ends snd] in Hc'.
    destruct (drop k3 s4) eqn:Hrest; [|destruct Hc'].
    assert (length (drop k3 s4) = 0)%nat as Hz by (by rewrite Hrest).
    rewrite length_drop in Hz. rewrite take_ge in Hall3 by lia.
    exists (take k1 l), (take k2 s2), s4.
    split; [by rewrite <- Hs4, take_drop, <- Hs2, take_drop|].
    split; [intros H; apply (f_equal length) in H;
            rewrite length_take in H; simpl in H; lia|].
    split; [intros H; apply (f_equal length) in H;
            rewrite length_take in H; simpl in H; lia|].
    split; [intros ->; simpl in Hk3; lia|]. done.
  - intros (local & head & tail & -> & Hl & Hh & Ht & Hal & Hah & Hat).
    exists ((length local + 1 + length head + 1 + length tail)%nat, []).
    apply in_ends_Cat.
    exists ((0 + length local)%nat, "@"%char :: head ++ "."%char :: tail).
    split.
    { apply in_ends_at_least_Class. exists (length local).
      rewrite length_app, take_app_length, drop_app_length.
      destruct local; [done|]. simpl. repeat split; try done; lia. }
    apply in_ends_Cat.
    exists (S (0 + length local), head ++ "."%char :: tail)%list.
    split; [apply in_ends_lit; eauto|].
    apply in_ends_Cat.
    exists ((S (0 + length local) + length head)%nat, "."%char :: tail).
    split.
    { apply in_ends_at_least_Class. exists (length head).
      rewrite length_app, take_app_length, drop_app_length.
      destruct head; [done|]. simpl. repeat split; try done; lia. }
    apply in_ends_Cat.
    exists (S (S (0 + length local) + length head), tail).
    split; [apply in_ends_lit; eauto|].
    apply in_ends_Cat.
    exists ((S (S (0 + length local) + length head) + length tail)%nat, []).
    split.
    { apply in_ends_at_least_Class. exists (length tail).
      rewrite take_ge, drop_ge by lia.
      destruct tail; [done|]. simpl. repeat split; try done; lia. }
    cbn [ends snd]. left. f_equal. lia.
Qed.

End EmailFacts.

Section EmailRule.
Import Regex Utils.

Lemma plain_iff a : plain a = true ↔ whitespace a = false ∧ a ≠ "@"%char.
Proof.
  unfold plain. rewrite negb_true_iff, orb_false_iff.
  split; intros [Hw Ha]; (split; [done|]).
  - intros ->. by rewrite Ascii.eqb_refl in Ha.
  - by apply Ascii.eqb_neq.
Qed.

Lemma forallb_plain_no_at (l : list ascii) k :
  forallb plain l = true → l !! k ≠ Some "@"%char.
Proof.
  intros Hall Hk. rewrite forallb_forall in Hall.
  assert (plain "@" = true) as H; [|by vm_compute in H].
  apply Hall, list_elem_of_In, list_elem_of_lookup. eauto.
Qed.

Lemma forallb_plain_no_space (l : list ascii) a :
  forallb plain l = true → In a l → whitespace a = false.
Proof.
  intros Hall Ha. rewrite forallb_forall in Hall.
  by apply plain_iff, Hall.
Qed.

(** The characters of [l] from [lo] up to [hi] are plain when [l] has no
    white space and its only [@] lies outside that range. *)
Lemma forallb_plain_range (l : list ascii) i lo n :
  (∀ a, In a l → whitespace a = false) →
  (∀ k, l !! k = Some "@"%char ↔ k = i) →
  (i < lo ∨ lo + n ≤ i)%nat →
  forallb plain (take n (drop lo l)) = true.
Proof.
  intros Hws Hat Hout. apply forallb_forall. intros a Ha.
  apply list_elem_of_In, elem_of_take in Ha as (m & Hm & Hlt).
  rewrite lookup_drop in Hm. apply plain_iff. split.
  - apply Hws, list_elem_of_In, list_elem_of_lookup. eauto.
  - intros ->. apply Hat in Hm. lia.
Qed.

Lemma email_split_rule (l : list ascii) :
  (∃ local head tail,
     l = (local ++ "@"%char :: head ++ "."%char :: tail)%list
     ∧ local ≠ [] ∧ head ≠ [] ∧ tail ≠ []
     ∧ forallb plain local = true ∧ forallb plain head = true
     ∧ forallb plain tail = true)
  ↔ (∀ a, In a l → whitespace a = false)
    ∧ ∃ i j,
        (∀ k, l !! k = Some "@"%char ↔ k = i)
        ∧ (0 < i)%nat
        ∧ l !! j = Some "."%char
        ∧ (i + 1 < j)%nat
        ∧ (j + 1 < length l)%nat.
Proof.
  split.
  - intros (local & head & tail & -> & Hl & Hh & Ht & Hal & Hah & Hat).
    split.
    + intros a Ha. rewrite in_app_iff in Ha. simpl in Ha.
      rewrite in_app_iff in Ha. simpl in Ha.
      destruct Ha as [Ha | [<- | [Ha | [<- | Ha]]]];
        eauto using forallb_plain_no_space.
    + exists (length local), (length local + 1 + length head)%nat.
      split; [|split; [|split; [|split]]].
      * intros k. split.
        -- intros Hk. apply lookup_app_Some in Hk as [Hk | [Hge Hk]].
           { by apply forallb_plain_no_at in Hk. }
           destruct (k - length local)%nat as [|m] eqn:Hm; [lia|].
           simpl in Hk. apply lookup_app_Some in Hk as [Hk | [Hge' Hk]].
           { by apply forallb_plain_no_at in Hk. }
           destruct (m - length head)%nat as [|m']; [done|].
           simpl in Hk. by apply forallb_plain_no_at in Hk.
        -- intros ->. by apply list_lookup_middle.
      * destruct local; [done | simpl; lia].
      * change (local ++ "@"%char :: head ++ "."%char :: tail)%list
          with (local ++ ("@"%char :: head) ++ "."%char :: tail)%list.
        rewrite app_assoc.
        apply list_lookup_middle. rewrite length_app. simpl. lia.
      * destruct head; [done | simpl; lia].
      * rewrite !length_app. simpl. rewrite length_app. simpl.
        destruct tail; [done | simpl; lia].
  - intros (Hws & i & j & Hat & Hi & Hj & Hij & Hjl).
    assert (l !! i = Some "@"%char) as Hati by by apply Hat.
    exists (take i l), (take (j - S i) (drop (S i) l)), (drop (S j) l).
    split; [|split; [|split; [|split; [|split; [|split]]]]].
    + rewrite <- (take_drop_middle l i "@"%char Hati) at 1. f_equal. f_equal.
      rewrite <- (take_drop_middle (drop (S i) l) (j - S i) "."%char) at 1.
      * f_equal. f_equal. rewrite drop_drop. f_equal. lia.
      * rewrite lookup_drop. rewrite <- Hj. f_equal. lia.
    + intros H. apply (f_equal length) in H. rewrite length_take in H.
      simpl in H. lia.
    + intros H. apply (f_equal length) in H.
      rewrite length_take, length_drop in H. simpl in H. lia.
    + intros H. apply (f_equal length) in H. rewrite length_drop in H.
      simpl in H. lia.
    + rewrite <- (drop_0 l) at 1.
      apply (forallb_plain_range l i 0 i); [done | done | lia].
    + apply (forallb_plain_range l i (S i) (j - S i)); [done | done | lia].
    + rewrite <- (take_ge (drop (S j) l) (length l))
        by (rewrite length_drop; lia).
      apply (forallb_plain_range l i (S j) (length l)); [done | done | lia].
Qed.

End EmailRule.

Example validateEmail_accepts :
  Utils.validateEmail "ada@example.org" = true.
Proof. reflexivity. Qed.

Example validateEmail_rejects_two_ats :
  Utils.validateEmail "a@b@example.org" = false.
Proof. reflexivity. Qed.

Example validateEmail_rejects_dot_after_at :
  Utils.validateEmail "ada@.org" = false.
Proof. reflexivity. Qed.

(** X1. [validateEmail] returns true exactly for the addresses without white
    space that have one [@], not in first place, and after it a dot that
    neither follows the [@] directly nor is the last character. *)
Theorem validateEmail_characterised :
  ∀ email, Utils.validateEmail email = true ↔ Utils.email_rule email.
Proof.
  intros email. unfold Utils.validateEmail, Utils.emailRegex.
  rewrite test_anchored, email_matches_split. apply email_split_rule.
Qed.

Section TrimFacts.
Import Utils.

Lemma trim_start_split (l : list ascii) :
  ∃ ws, l = (ws ++ trim_start l)%list ∧ forallb whitespace ws = true.
Proof.
  induction l as [|a l (ws & IH & Hws)]; [by exists []|].
  simpl. destruct (whitespace a) eqn:Ha.
  - exists (a :: ws). simpl. rewrite Ha, Hws. by rewrite <- IH.
  - by exists [].
Qed.

Lemma trim_start_head (l : list ascii) a rest :
  trim_start l = a :: rest → whitespace a = false.
Proof.
  induction l as [|b l IH]; [done|]. simpl.
  destruct (whitespace b) eqn:Hb; [done|]. by intros [= <- _].
Qed.

Lemma trim_start_clean (l : list ascii) :
  forallb (λ a, negb (whitespace a)) l = true → trim_start l = l.
Proof.
  destruct l as [|a l]; [done|]. simpl.
  by destruct (whitespace a).
Qed.

Lemma forallb_rev {A} (f : A → bool) (l : list A) :
  forallb f (rev l) = forallb f l.
Proof.
  induction l as [|a l IH]; [done|]. simpl.
  rewrite forallb_app, IH. simpl. rewrite andb_true_r. apply andb_comm.
Qed.

Lemma trim_end_split (l : list ascii) :
  ∃ ws, l = (trim_end l ++ ws)%list ∧ forallb whitespace ws = true.
Proof.
  unfold trim_end. destruct (trim_start_split (rev l)) as (ws & Hl & Hws).
  exists (rev ws). split; [|by rewrite forallb_rev].
  rewrite <- rev_app_distr, <- Hl. by rewrite rev_involutive.
Qed.

Lemma trim_end_last (l init : list ascii) a :
  trim_end l = (init ++ [a])%list → whitespace a = false.
Proof.
  unfold trim_end. intros H. apply (f_equal (@rev ascii)) in H.
  rewrite rev_involutive, rev_app_distr in H. simpl in H.
  by eapply trim_start_head.
Qed.

(** What [trim] keeps: the input without the white space at its two ends. *)
Lemma trim_split (l : list ascii) :
  ∃ before after,
    l = (before ++ trim l ++ after)%list
    ∧ forallb whitespace before = true
    ∧ forallb whitespace after = true
    ∧ (∀ a rest, trim l = a :: rest → whitespace a = false)
    ∧ (∀ init a, trim l = (init ++ [a])%list → whitespace a = false).
Proof.
  unfold trim.
  destruct (trim_start_split l) as (before & Hl & Hb).
  destruct (trim_end_split (trim_start l)) as (after & Hm & Ha).
  exists before, after. split; [by rewrite <- Hm|].
  split; [done|]. split; [done|]. split.
  - intros a rest Hkept. rewrite Hkept in Hm.
    by eapply trim_start_head.
  - intros init a. apply trim_end_last.
Qed.

Lemma trim_clean (l : list ascii) :
  forallb (λ a, negb (whitespace a)) l = true → trim l = l.
Proof.
  intros Hl. unfold trim, trim_end.
  rewrite (trim_start_clean l) by done.
  rewrite trim_start_clean by (by rewrite forallb_rev).
  apply rev_involutive.
Qed.

Lemma length_trim (l : list ascii) : (length (trim l) ≤ length l)%nat.
Proof.
  destruct (trim_split l) as (before & after & Hl & _).
  rewrite Hl at 2. rewrite !length_app. lia.
Qed.

End TrimFacts.

(** X2. [truncateText] returns a text of at most [maxLength] characters as
    it is. Of a longer text it keeps the first [maxLength] characters (none
    when [maxLength] is negative), strips the white space at both ends of
    that piece, and appends three dots: what stands before the dots neither
    starts nor ends with white space. *)
Theorem truncateText_shape :
  ∀ (text : string) (maxLength : Z),
    (Z.of_nat (length (list_ascii_of_string text)) ≤ maxLength
     → Utils.truncateText text maxLength = text)%Z
    ∧ ((maxLength < Z.of_nat (length (list_ascii_of_string text)))%Z →
       ∃ before kept after,
         take (Z.to_nat maxLength) (list_ascii_of_string text)
         = (before ++ kept ++ after)%list
         ∧ forallb Utils.whitespace before = true
         ∧ forallb Utils.whitespace after = true
         ∧ (∀ a rest, kept = a :: rest → Utils.whitespace a = false)
         ∧ (∀ init a, kept = (init ++ [a])%list →
                      Utils.whitespace a = false)
         ∧ list_ascii_of_string (Utils.truncateText text maxLength)
           = (kept ++ list_ascii_of_string "...")%list).
Proof.
  intros text maxLength. unfold Utils.truncateText. cbv zeta. split.
  - intros Hle. apply Z.leb_le in Hle. by rewrite Hle.
  - intros Hlt. apply Z.leb_gt in Hlt. rewrite Hlt.
    destruct (trim_split (take (Z.to_nat maxLength)
                            (list_ascii_of_string text)))
      as (before & after & Hsplit & Hb & Ha & Hhead & Hlast).
    eexists before, _, after. split; [exact Hsplit|].
    split; [done|]. split; [done|]. split; [done|]. split; [done|].
    by rewrite list_ascii_of_string_app, list_ascii_of_string_of_list_ascii.
Qed.

Lemma truncateText_shape_witness :
  (Z.of_nat (length (list_ascii_of_string "report")) ≤ 6)%Z
  ∧ Utils.truncateText "report" 6 = "report".
Proof.
  split; [vm_compute; discriminate|].
  apply (truncateText_shape "report" 6). vm_compute. discriminate.
Defined.

Example truncateText_strips_the_cut :
  Utils.truncateText "annual report 2024" 7 = "annual...".
Proof. reflexivity. Qed.

(** X3. The text [truncateText] returns has at most [maxLength] + 3
    characters (3 for a negative [maxLength]), so it can be longer than the
    text it was given: a text without white space that is one or two
    characters over [maxLength] comes back with [maxLength] + 3. *)
Theorem truncateText_length :
  ∀ (text : string) (maxLength : Z),
    (Z.of_nat (length (list_ascii_of_string
                         (Utils.truncateText text maxLength)))
     ≤ Z.max 0 maxLength + 3)%Z
    ∧ ((0 ≤ maxLength < Z.of_nat (length (list_ascii_of_string text)))%Z →
       forallb (λ a, negb (Utils.whitespace a)) (list_ascii_of_string text)
       = true →
       Z.of_nat (length (list_ascii_of_string
                           (Utils.truncateText text maxLength)))
       = (maxLength + 3)%Z).
Proof.
  intros text maxLength. unfold Utils.truncateText. cbv zeta. split.
  - destruct (Z.leb_spec (Z.of_nat (length (list_ascii_of_string text)))
                maxLength) as [Hle|Hlt]; [lia|].
    rewrite list_ascii_of_string_app, list_ascii_of_string_of_list_ascii.
    rewrite length_app. simpl.
    pose proof (length_trim (take (Z.to_nat maxLength)
                               (list_ascii_of_string text))) as Htrim.
    rewrite length_take in Htrim. lia.
  - intros [Hnonneg Hlt] Hclean. apply Z.leb_gt in Hlt as Hlt'.
    rewrite Hlt'.
    rewrite list_ascii_of_string_app, list_ascii_of_string_of_list_ascii.
    rewrite trim_clean.
    + rewrite length_app, length_take. simpl. lia.
    + apply forallb_forall. intros a Ha. rewrite forallb_forall in Hclean.
      apply Hclean. apply list_elem_of_In. apply list_elem_of_In in Ha.
      apply elem_of_take in Ha as (j & Hj & _).
      apply list_elem_of_lookup. eauto.
Qed.

Lemma truncateText_length_witness :
  Z.of_nat (length (list_ascii_of_string (Utils.truncateText "report" 5)))
  = 8%Z.
Proof.
  apply (truncateText_length "report" 5);
    [vm_compute; split; [discriminate | reflexivity] | reflexivity].
Defined.

(** X4. For a date that parses, [formatRelativeTime] reads [Just now] up to
    a minute after it, and for any date in the future; from then on it
    counts whole minutes (1 to 59), hours (1 to 23) or days (1 to 29), never
    zero of them, always in the plural; from 30 days on it hands over to
    [formatDate]. *)
Theorem formatRelativeTime_ranges :
  ∀ (getTime : string → option Z) (formatDate : string → string)
    (now t : Z) (dateString : string),
    getTime dateString = Some t →
    ((now - t < 60000)%Z →
     Utils.formatRelativeTime getTime formatDate now dateString
     = "Just now")
    ∧ ((60000 ≤ now - t < 3600000)%Z →
       ∃ k, (1 ≤ k ≤ 59)%Z ∧ k = ((now - t) `div` 60000)%Z
            ∧ Utils.formatRelativeTime getTime formatDate now dateString
              = pretty k +:+ " minutes ago")
    ∧ ((3600000 ≤ now - t < 86400000)%Z →
       ∃ k, (1 ≤ k ≤ 23)%Z ∧ k = ((now - t) `div` 3600000)%Z
            ∧ Utils.formatRelativeTime getTime formatDate now dateString
              = pretty k +:+ " hours ago")
    ∧ ((86400000 ≤ now - t < 2592000000)%Z →
       ∃ k, (1 ≤ k ≤ 29)%Z ∧ k = ((now - t) `div` 86400000)%Z
            ∧ Utils.formatRelativeTime getTime formatDate now dateString
              = pretty k +:+ " days ago")
    ∧ ((2592000000 ≤ now - t)%Z →
       Utils.formatRelativeTime getTime formatDate now dateString
       = formatDate dateString).
Proof.
  intros getTime formatDate now t dateString Ht.
  unfold Utils.formatRelativeTime. rewrite Ht. cbv zeta.
  set (x := (now - t)%Z). set (d := (x `div` 1000)%Z).
  assert (1000 * d ≤ x < 1000 * d + 1000)%Z as Hd.
  { subst d. pose proof (Z.div_mod x 1000).
    pose proof (Z.mod_pos_bound x 1000). lia. }
  assert (∀ m, (0 < m)%Z → (d `div` m = x `div` (1000 * m))%Z) as Hdiv.
  { intros m Hm. subst d. rewrite Z.div_div by lia. done. }
  repeat split.
  - intros Hx. destruct (Z.ltb_spec d 60); [done | lia].
  - intros Hx. destruct (Z.ltb_spec d 60); [lia|].
    destruct (Z.ltb_spec d 3600); [|lia].
    exists (d `div` 60)%Z.
    split; [|split; [rewrite Hdiv by lia; reflexivity | done]].
    pose proof (Z.div_mod d 60). pose proof (Z.mod_pos_bound d 60). lia.
  - intros Hx. destruct (Z.ltb_spec d 60); [lia|].
    destruct (Z.ltb_spec d 3600); [lia|].
    destruct (Z.ltb_spec d 86400); [|lia].
    exists (d `div` 3600)%Z.
    split; [|split; [rewrite Hdiv by lia; reflexivity | done]].
    pose proof (Z.div_mod d 3600). pose proof (Z.mod_pos_bound d 3600). lia.
  - intros Hx. destruct (Z.ltb_spec d 60); [lia|].
    destruct (Z.ltb_spec d 3600); [lia|].
    destruct (Z.ltb_spec d 86400); [lia|].
    destruct (Z.ltb_spec d 2592000); [|lia].
    exists (d `div` 86400)%Z.
    split; [|split; [rewrite Hdiv by lia; reflexivity | done]].
    pose proof (Z.div_mod d 86400). pose proof (Z.mod_pos_bound d 86400).
    lia.
  - intros Hx. destruct (Z.ltb_spec d 60); [lia|].
    destruct (Z.ltb_spec d 3600); [lia|].
    destruct (Z.ltb_spec d 86400); [lia|].
    destruct (Z.ltb_spec d 2592000); [lia | done].
Qed.

Lemma formatRelativeTime_ranges_witness :
  Utils.formatRelativeTime (λ _, Some 1700000000000%Z) (λ s, s)
    1700000119999%Z "2023-11-14T22:13:20Z"
  = "1 minutes ago"
  ∧ Utils.formatRelativeTime (λ _, Some 1700000000000%Z) (λ s, s)
      1699999000000%Z "2023-11-14T22:13:20Z"
    = "Just now".
Proof.
  destruct (formatRelativeTime_ranges (λ _, Some 1700000000000%Z) (λ s, s)
              1700000119999%Z 1700000000000%Z "2023-11-14T22:13:20Z"
              eq_refl) as (_ & Hmin & _).
  destruct Hmin as (k & _ & -> & ->); [lia|].
  split; [reflexivity|].
  apply (formatRelativeTime_ranges (λ _, Some 1700000000000%Z) (λ s, s)
           1699999000000%Z 1700000000000%Z "2023-11-14T22:13:20Z" eq_refl).
  lia.
Defined.

(** ** More on the client *)

Section ClientFacts.
Import Js Api.

Lemma sent_handleApiError w response :
  sent (handleApiError w response).1 = sent w.
Proof. by destruct (handleApiError_frame w response) as (ts & e & ->). Qed.

Lemma sent_go_to_login w : sent (go_to_login w).1 = sent w.
Proof. unfold go_to_login. by destruct (window w). Qed.

Lemma sent_clearAuthToken w : sent (clearAuthToken w) = sent w.
Proof. done. Qed.

Lemma sent_session_expired w : sent (session_expired w).1 = sent w.
Proof. unfold session_expired. by rewrite sent_go_to_login. Qed.

Lemma sent_without_refresh_token w w' thrown :
  without_refresh_token w = Finished w' thrown → sent w' = sent w.
Proof.
  unfold without_refresh_token.
  pose proof (sent_go_to_login (clearAuthToken w)) as H1.
  rewrite sent_clearAuthToken in H1.
  destruct (go_to_login (clearAuthToken w)) as [w1 [e|]]; cbn [fst] in H1.
  - pose proof (sent_session_expired w1) as H2.
    destruct (session_expired w1) as [w2 t]. cbn [fst] in H2.
    intros [= <- _]. congruence.
  - intros [= <- _]. done.
Qed.

Lemma begin_cases w :
  (∃ w' thrown, handleTokenExpiration_begin w = Finished w' thrown
                ∧ sent w' = sent w)
  ∨ (∃ rt, handleTokenExpiration_begin w = Awaiting w (refreshConfig rt)
           ∧ getItem "refresh_token" w = Some rt).
Proof.
  unfold handleTokenExpiration_begin.
  destruct (getItem "refresh_token" w) as [rt|] eqn:Hrt.
  - destruct (truthy (Some rt)); [right; eauto|].
    left. destruct (without_refresh_token w) as [w' t|] eqn:H.
    + exists w', t. split; [done|]. by eapply sent_without_refresh_token.
    + unfold without_refresh_token in H.
      destruct (go_to_login _) as [? []]; [destruct (session_expired _)|];
        discriminate.
  - left. destruct (without_refresh_token w) as [w' t|] eqn:H.
    + exists w', t. split; [done|]. by eapply sent_without_refresh_token.
    + unfold without_refresh_token in H.
      destruct (go_to_login _) as [? []]; [destruct (session_expired _)|];
        discriminate.
Qed.

Lemma sent_resume w r : sent (handleTokenExpiration_resume w r).1 = sent w.
Proof.
  destruct r as [[response|]|e]; cbn [handleTokenExpiration_resume fst];
    auto using sent_session_expired.
  destruct (data response); auto using sent_session_expired.
Qed.

Lemma sent_responseRejected_skipAuth handle w config response :
  skipAuth config = true →
  sent (responseRejected handle w config response).1 = sent w.
Proof.
  intros Hskip.
  destruct (responseRejected_frame handle w config response)
    as (ts & e & ->); [by rewrite Hskip, andb_false_r | done].
Qed.

Lemma sent_settle_skipAuth handle w config reply :
  skipAuth config = true →
  sent (settle handle w config reply).1 = sent w.
Proof.
  intros Hskip. unfold settle.
  destruct reply as [r|]; [destruct (validateStatus _); [done|]|];
    by apply sent_responseRejected_skipAuth.
Qed.

(** The handler sends the refresh call or nothing. *)
Lemma sent_handleTokenExpiration env w :
  sent (handleTokenExpiration env w).1 = sent w
  ∨ ∃ rt, getItem "refresh_token" w = Some rt
          ∧ sent (handleTokenExpiration env w).1
            = (sent w ++ [(dispatch env w (refreshConfig rt)).2])%list.
Proof.
  unfold handleTokenExpiration.
  destruct (begin_cases w) as [(w' & t & -> & Hs) | (rt & -> & Hrt)].
  - by left.
  - right. exists rt. split; [done|]. unfold request_with.
    cbn [dispatch snd].
    set (rc := requestInterceptor w _ (refreshConfig rt)).
    pose proof (sent_settle_skipAuth unreachable_handler (record_sent rc w)
                  rc (server env (length (sent w)) rc)) as Hsettle.
    destruct (settle _ _ _ _) as [w1 r]. cbn [fst] in Hsettle.
    rewrite sent_resume, Hsettle; [done|].
    subst rc. by rewrite requestInterceptor_skipAuth.
Qed.

End ClientFacts.

(** X5. In a browser a token given to [setAuthToken] is the token a client
    constructed afterwards starts with (a reload keeps the session), and
    after [clearAuth] a new client starts without a token. Without a
    browser a new client never has one. *)
Theorem token_survives_reload :
  ∀ (w : Api.World) (b : Api.Browser) (t : string),
    Api.window w = Some b →
    Api.authToken
      (Api.construct (Api.window (Api.setAuthToken (Some t) w))) = Some t
    ∧ Api.authToken
        (Api.construct
           (Api.window (Api.clearAuth (Api.setAuthToken (Some t) w))))
      = None
    ∧ Api.authToken (Api.construct None) = None.
Proof.
  intros w b t Hw.
  unfold Api.construct, Api.loadAuthToken, Api.setAuthToken, Api.clearAuth,
    Api.saveAuthToken, Api.clearAuthToken, Api.with_storage,
    Api.with_authToken.
  cbn [Api.window Api.authToken Api.toasts Api.sent]. rewrite Hw.
  cbn [Api.window Api.authToken Api.localStorage]. split; [|split].
  - by rewrite lookup_insert_eq.
  - rewrite lookup_delete_ne by done. by rewrite lookup_delete_eq.
  - done.
Qed.

Lemma token_survives_reload_witness :
  Api.authToken
    (Api.construct
       (Api.window (Api.setAuthToken (Some "a9") Scenario.signed_in)))
  = Some "a9".
Proof.
  apply (token_survives_reload Scenario.signed_in Scenario.signed_in_browser
           "a9").
  reflexivity.
Defined.

Section GetFacts.
Import Js Api.

Lemma get_accepted env w u config r :
  server env (length (sent w))
    (dispatch env w (merge_config "get" u ∅ config)).2 = Replied r →
  validateStatus (status r) = true →
  get env w u config
  = ((dispatch env w (merge_config "get" u ∅ config)).1, Returned (data r)).
Proof.
  intros Hreply Hok. unfold get, request, request_with.
  cbn [dispatch fst snd] in *. rewrite Hreply. unfold settle.
  by rewrite Hok.
Qed.

Lemma responseRejected_not_fulfilled handle w config response r :
  (responseRejected handle w config response).2 ≠ Fulfilled (Some r).
Proof.
  destruct (is_unauthorized response && negb (skipAuth config)) eqn:Hc.
  - unfold responseRejected. rewrite Hc. by destruct (handle w) as [w' [e|]].
  - by destruct (responseRejected_frame handle w config response Hc)
      as (ts & e & ->).
Qed.

Lemma get_rejected env w u config :
  accepted (server env (length (sent w))
              (dispatch env w (merge_config "get" u ∅ config)).2) = false →
  ∃ e, (get env w u config).2 = Threw e.
Proof.
  intros Hrej. unfold get, request, request_with.
  cbn [dispatch fst snd] in *. unfold settle, accepted in *.
  set (c' := requestInterceptor w _ _) in *.
  assert (∀ response,
            ∃ e, (let (w', r) :=
                    responseRejected (handleTokenExpiration env)
                      (record_sent c' w) c' response in
                  (w', response_data r)).2 = Threw e) as Hbranch.
  { intros response.
    pose proof (responseRejected_not_fulfilled (handleTokenExpiration env)
                  (record_sent c' w) c' response) as Hnot.
    destruct (responseRejected _ _ _ _) as [w' [[r|]|e]]; cbn in *;
      [by destruct (Hnot r) | eauto | eauto]. }
  destruct (server env (length (sent w)) c') as [r|]; [rewrite Hrej|];
    apply Hbranch.
Qed.

End GetFacts.

(** X6. [get] returns exactly when the reply to the request has a status
    from 200 to 299, and then it returns that reply's data and leaves the
    world as the sending of the request left it: no toast, no change to the
    tokens, no further request. *)
Theorem get_returns_iff_accepted :
  ∀ (env : Api.Env) (w : Api.World) (u : string) (config : Api.Config)
    (d : option Js.Json),
    (Api.get env w u config).2 = Api.Returned d
    ↔ ∃ r,
        Api.server env (length (Api.sent w))
          (Api.dispatch env w (Api.merge_config "get" u ∅ config)).2
        = Api.Replied r
        ∧ Api.validateStatus (Api.status r) = true
        ∧ Api.data r = d
        ∧ (Api.get env w u config).1
          = (Api.dispatch env w (Api.merge_config "get" u ∅ config)).1.
Proof.
  intros env w u config d. split.
  - intros Hret.
    destruct (Api.server env (length (Api.sent w)) _) as [r|] eqn:Hreply.
    + destruct (Api.validateStatus (Api.status r)) eqn:Hok.
      * exists r. rewrite (get_accepted env w u config r) in * by done.
        cbn [snd] in Hret. injection Hret as <-. done.
      * destruct (get_rejected env w u config) as [e He];
          [by rewrite Hreply|]. congruence.
    + destruct (get_rejected env w u config) as [e He];
        [by rewrite Hreply|]. congruence.
  - intros (r & Hreply & Hok & <- & _).
    by rewrite (get_accepted env w u config r).
Qed.

(** X7. Whatever comes back, one call of [request] puts the request itself
    on the network and after it at most one more, the refresh call made
    with the stored refresh token: the client never sends a request twice
    and never makes a second refresh. *)
Theorem request_sends_at_most_one_refresh :
  ∀ (env : Api.Env) (w : Api.World) (config : Api.Config),
    Api.sent (Api.request env w config).1
    = (Api.sent w ++ [(Api.dispatch env w config).2])%list
    ∨ ∃ rt,
        Api.getItem "refresh_token" w = Some rt
        ∧ Api.sent (Api.request env w config).1
          = (Api.sent w
             ++ [(Api.dispatch env w config).2;
                 (Api.dispatch env (Api.dispatch env w config).1
                    (Api.refreshConfig rt)).2])%list.
Proof.
  intros env w config. unfold Api.request, Api.request_with.
  cbn [Api.dispatch fst snd].
  set (c' := Api.requestInterceptor w _ config).
  set (w1 := Api.record_sent c' w).
  assert (Api.sent w1 = (Api.sent w ++ [c'])%list) as Hsent1 by done.
  assert (Api.getItem "refresh_token" w1 = Api.getItem "refresh_token" w)
    as Hget by done.
  assert (∀ response,
            Api.is_unauthorized response && negb (Api.skipAuth c') = false →
            Api.sent (Api.responseRejected (Api.handleTokenExpiration env)
                        w1 c' response).1
            = (Api.sent w ++ [c'])%list) as Hplain.
  { intros response Hno.
    by destruct (responseRejected_frame (Api.handleTokenExpiration env) w1
                   c' response Hno) as (ts & e & ->). }
  unfold Api.settle.
  assert (Api.sent (let (w', thrown) := Api.handleTokenExpiration env w1 in
                    (w', Api.handler_outcome thrown)).1
          = (Api.sent w ++ [c'])%list
          ∨ ∃ rt, Api.getItem "refresh_token" w = Some rt
                  ∧ Api.sent
                      (let (w', thrown) :=
                         Api.handleTokenExpiration env w1 in
                       (w', Api.handler_outcome thrown)).1
                    = (Api.sent w
                       ++ [c'; (Api.dispatch env w1
                                  (Api.refreshConfig rt)).2])%list)
    as Hhandler.
  { destruct (sent_handleTokenExpiration env w1) as [H | (rt & Hrt & H)];
      destruct (Api.handleTokenExpiration env w1) as [w2 t];
      cbn [fst] in *.
    - left. congruence.
    - right. exists rt. split; [congruence|].
      rewrite H, Hsent1, <- app_assoc. done. }
  destruct (Api.server env (length (Api.sent w)) c') as [r|].
  - destruct (Api.validateStatus (Api.status r)); [by left|].
    destruct (Api.is_unauthorized (Some r) && negb (Api.skipAuth c'))
      eqn:Hcond; [|left; by apply Hplain].
    unfold Api.responseRejected. rewrite Hcond. exact Hhandler.
  - left. by apply Hplain.
Qed.


(** X8. A request that fails otherwise than with a 401 (an error status, or
    no reply), or that was made with [skipAuth], never touches the session:
    the token in memory and the browser stay as they were, nothing more is
    sent, and its promise is rejected. Under [skipErrorHandling] it is
    rejected with the axios error of that reply and no toast is shown.
    Otherwise the error handler runs: on an error reply whose body is
    [null] it throws before it shows anything, so the promise is rejected
    with that [TypeError] and there is no toast; in every other case
    exactly one toast is shown and the promise is rejected with the axios
    error. *)
Theorem failure_leaves_session_alone :
  ∀ (env : Api.Env) (w : Api.World) (config : Api.Config),
    Api.accepted
      (Api.server env (length (Api.sent w)) (Api.dispatch env w config).2)
    = false →
    (∀ r, Api.server env (length (Api.sent w)) (Api.dispatch env w config).2
          = Api.Replied r → Api.status r = 401%Z →
          Api.skipAuth config = true) →
    ∃ w' e,
      Api.request env w config = (w', Api.Rejected e)
      ∧ Api.authToken w' = Api.authToken w
      ∧ Api.window w' = Api.window w
      ∧ Api.sent w' = (Api.sent w ++ [(Api.dispatch env w config).2])%list
      ∧ if Api.skipErrorHandling config
        then e = Api.AxiosError (Api.dispatch env w config).2
                   (Api.error_response
                      (Api.server env (length (Api.sent w))
                         (Api.dispatch env w config).2))
             ∧ Api.toasts w' = Api.toasts w
        else match Api.server env (length (Api.sent w))
                     (Api.dispatch env w config).2 with
             | Api.Replied {| Api.data := None |} =>
                 e = Api.TypeError
                       "Cannot read properties of null (reading 'detail')"
                 ∧ Api.toasts w' = Api.toasts w
             | reply =>
                 e = Api.AxiosError (Api.dispatch env w config).2
                       (Api.error_response reply)
                 ∧ ∃ message, Api.toasts w' = (Api.toasts w ++ [message])%list
             end.
Proof.
  intros env w config Hrej H401. unfold Api.request, Api.request_with.
  cbn [Api.dispatch fst snd] in *.
  set (c' := Api.requestInterceptor w _ config) in *.
  assert (Api.skipErrorHandling c' = Api.skipErrorHandling config) as Hseh.
  { subst c'. unfold Api.requestInterceptor. by repeat case_match. }
  assert (Api.skipAuth c' = Api.skipAuth config) as Hsa
    by apply requestInterceptor_skipAuth.
  set (reply := Api.server env (length (Api.sent w)) c') in *.
  clearbody reply.
  assert (Api.is_unauthorized (Api.error_response reply)
          && negb (Api.skipAuth c') = false) as Hcond.
  { destruct reply as [r|]; [|done].
    cbn [Api.error_response Api.is_unauthorized].
    destruct (Z.eqb_spec (Api.status r) 401); [|done].
    rewrite Hsa, (H401 r) by done. done. }
  assert (Api.settle (Api.handleTokenExpiration env) (Api.record_sent c' w)
            c' reply
          = Api.responseRejected (Api.handleTokenExpiration env)
              (Api.record_sent c' w) c' (Api.error_response reply)) as ->.
  { unfold Api.settle, Api.accepted in *.
    destruct reply as [r|]; [by rewrite Hrej | done]. }
  unfold Api.responseRejected. rewrite Hcond, Hseh.
  destruct (Api.skipErrorHandling config); cbn [negb].
  - eexists _, _. repeat split; done.
  - unfold Api.handleApiError.
    destruct reply as [[st [d|]]|];
      cbn [Api.error_response Api.data Api.status];
      eexists _, _; (split; [reflexivity|]); repeat split; try done;
      by eexists.
Qed.

Lemma failure_leaves_session_alone_witness :
  ∃ w',
    Api.request Scenario.refusing Scenario.signed_in Scenario.list_documents
    = (w', Api.Rejected
             (Api.AxiosError
                (Api.dispatch Scenario.refusing Scenario.signed_in
                   Scenario.list_documents).2
                (Some (Api.mkResponse 400
                         (Some {[ "detail" := "Inactive user" ]})))))
    ∧ Api.authToken w' = Some "a1"
    ∧ Api.toasts w' = ["Validation Error: Inactive user"].
Proof.
  destruct (failure_leaves_session_alone Scenario.refusing Scenario.signed_in
              Scenario.list_documents)
    as (w' & e & Hrun & Htok & _ & _ & He & _).
  - reflexivity.
  - intros r Hr. vm_compute in Hr. injection Hr as <-. discriminate.
  - exists w'. cbn in He. rewrite He in Hrun.
    split; [exact Hrun|]. split; [exact Htok|].
    replace w' with (Api.request Scenario.refusing Scenario.signed_in
                       Scenario.list_documents).1 by (by rewrite Hrun).
    reflexivity.
Defined.

(** An error reply with a [null] body: the error handler throws on reading
    the detail, no toast is shown, and the caller gets the [TypeError]
    instead of the axios error. *)
Example null_body_error_shows_no_toast :
  (Api.request Scenario.broken Scenario.signed_in Scenario.list_documents).2
  = Api.Rejected
      (Api.TypeError "Cannot read properties of null (reading 'detail')")
  ∧ Api.toasts
      (Api.request Scenario.broken Scenario.signed_in
         Scenario.list_documents).1 = [].
Proof. split; reflexivity. Qed.

(** X9. Where there is no window (on the server side), a 401 reply to a
    request made without [skipAuth] starts no refresh: the handler finds no
    refresh token, drops the token in memory, shows the session-expired
    toast and fails on the redirect, so that the request's promise is
    rejected with a [ReferenceError]. *)
Theorem unauthorized_without_window :
  ∀ (env : Api.Env) (w : Api.World) (config : Api.Config)
    (r : Api.Response),
    Api.window w = None →
    Api.skipAuth config = false →
    Api.server env (length (Api.sent w)) (Api.dispatch env w config).2
    = Api.Replied r →
    Api.status r = 401%Z →
    Api.request env w config
    = (Api.mkWorld None None
         (Api.toasts w ++ ["Session expired. Please log in again."])
         (Api.sent w ++ [(Api.dispatch env w config).2]),
       Api.Rejected (Api.ReferenceError "window is not defined")).
Proof.
  intros env w config r Hw Hskip Hreply Hstatus.
  rewrite (request_unauthorized env w config r) by done.
  cbn [Api.dispatch fst snd].
  unfold Api.handleTokenExpiration, Api.handleTokenExpiration_begin,
    Api.getItem, Api.record_sent. cbn [Api.window]. rewrite Hw.
  unfold Api.without_refresh_token, Api.session_expired, Api.go_to_login,
    Api.clearAuthToken, Api.with_storage, Api.with_authToken,
    Api.toast_error.
  cbn [Api.window Api.authToken Api.toasts Api.sent]. done.
Qed.

Lemma unauthorized_without_window_witness :
  (Api.request Scenario.rejecting Scenario.server_side
     Scenario.list_documents).2
  = Api.Rejected (Api.ReferenceError "window is not defined").
Proof.
  rewrite (unauthorized_without_window Scenario.rejecting
             Scenario.server_side Scenario.list_documents Scenario.expired);
    reflexivity.
Defined.

(** X10. A refresh reply that is accepted but has no [access_token] field
    leaves the client without a token in memory, so that the next requests
    go out without credentials, and writes the text [undefined] to
    [localStorage]; a client constructed afterwards takes that text for its
    token and sends [Bearer undefined]. *)
Theorem refresh_reply_without_access_token :
  ∀ (w : Api.World) (b : Api.Browser) (r : Api.Response)
    (tokens : Js.Json) (e : Api.Entropy) (config : Api.Config),
    Api.window w = Some b →
    Api.data r = Some tokens →
    tokens !! "access_token" = None →
    Api.skipAuth config = false →
    Api.headers config !! "Authorization" = None →
    Api.authToken
      (Api.handleTokenExpiration_resume w (Api.Fulfilled (Some r))).1 = None
    ∧ Api.getItem "access_token"
        (Api.handleTokenExpiration_resume w (Api.Fulfilled (Some r))).1
      = Some "undefined"
    ∧ Api.headers
        (Api.requestInterceptor
           (Api.handleTokenExpiration_resume w (Api.Fulfilled (Some r))).1
           e config) !! "Authorization" = None
    ∧ Api.headers
        (Api.requestInterceptor
           (Api.construct
              (Api.window
                 (Api.handleTokenExpiration_resume w
                    (Api.Fulfilled (Some r))).1))
           e config) !! "Authorization" = Some "Bearer undefined".
Proof.
  intros w b r tokens e config Hw Hbody Hmissing Hskip Hnone.
  rewrite !requestInterceptor_authorization, Hskip, Hnone.
  cbn [Api.handleTokenExpiration_resume]. rewrite Hbody. cbn [fst].
  rewrite Hmissing.
  unfold Api.construct, Api.loadAuthToken, Api.getItem, Api.saveAuthToken,
    Api.with_storage, Api.with_authToken.
  cbn [Api.window Api.authToken Api.toasts Api.sent]. rewrite Hw.
  cbn [Api.window Api.authToken Api.localStorage].
  rewrite lookup_insert_ne by done. rewrite lookup_insert_eq. done.
Qed.

Lemma refresh_reply_without_access_token_witness :
  Api.getItem "access_token"
    (Api.handleTokenExpiration_resume Scenario.signed_in
       (Api.Fulfilled (Some (Api.mkResponse 200 (Some ∅))))).1
  = Some "undefined".
Proof.
  apply (refresh_reply_without_access_token Scenario.signed_in
           Scenario.signed_in_browser (Api.mkResponse 200 (Some ∅)) ∅
           (Scenario.clock 0) Scenario.list_documents);
    reflexivity.
Defined.

(** ** More on requests in flight *)

Section LoopFacts.
Import Js Api.






Lemma step_refreshing_skipAuth env l ev :
  Forall (λ c, skipAuth c = true) (refreshing l) →
  Forall (λ c, skipAuth c = true) (refreshing (step env l ev)).
Proof.
  intros Hl. destruct ev as [config response | i reply]; cbn [step].
  - destruct (_ && _).
    + destruct (handleTokenExpiration_begin (world l)) as [w t | w rc] eqn:Hb;
        [done|].
      apply begin_Awaiting in Hb as (-> & rt & _ & _ & ->).
      cbn [dispatch refreshing]. apply Forall_app. split; [done|].
      constructor; [|done]. by rewrite requestInterceptor_skipAuth.
    + by destruct (responseRejected _ _ _ _).
  - destruct (refreshing l !! i); [|done].
    destruct (settle _ _ _ _) as [w r].
    destruct (handleTokenExpiration_resume w r). cbn.
    by apply Forall_delete.
Qed.

Lemma run_refreshing_skipAuth env : ∀ evs l,
  Forall (λ c, skipAuth c = true) (refreshing l) →
  Forall (λ c, skipAuth c = true) (refreshing (run env l evs)).
Proof.
  induction evs as [|ev evs IH]; intros l Hl; [done|].
  cbn [run fold_left]. apply IH. by apply step_refreshing_skipAuth.
Qed.

End LoopFacts.


(** Two failures and the replies to their refresh calls: two answers, in
    the order the replies came in, and nothing left in flight. *)
Example two_failures_two_answers :
  Api.delivered
    (Api.run Scenario.renewing (Api.mkLoop Scenario.signed_in [] [])
       [Api.Failed Scenario.list_documents (Some Scenario.expired);
        Api.Failed Scenario.list_documents (Some Scenario.expired);
        Api.RefreshSettled 1 (Api.Replied Scenario.refused);
        Api.RefreshSettled 0 (Api.Replied Scenario.refused);
        Api.RefreshSettled 0 (Api.Replied Scenario.refused)])
  = [Api.Fulfilled None; Api.Fulfilled None]
  ∧ Api.refreshing
      (Api.run Scenario.renewing (Api.mkLoop Scenario.signed_in [] [])
         [Api.Failed Scenario.list_documents (Some Scenario.expired);
          Api.Failed Scenario.list_documents (Some Scenario.expired);
          Api.RefreshSettled 1 (Api.Replied Scenario.refused);
          Api.RefreshSettled 0 (Api.Replied Scenario.refused);
          Api.RefreshSettled 0 (Api.Replied Scenario.refused)])
    = [].
Proof. split; reflexivity. Qed.

(** X12. When the reply to a refresh call in flight arrives, it alone
    decides the session, whatever other refreshes have made of it in the
    meantime: an accepted reply installs the tokens of its body even over a
    session that was cleared, and a rejected one (or an accepted one whose
    body is [null]) clears the session even if another refresh has just
    renewed it. *)
Theorem last_refresh_reply_wins :
  ∀ (env : Api.Env) (w : Api.World) (evs : list Api.Event) (i : nat)
    (rc : Api.Config) (reply : Api.Reply) (b : Api.Browser),
    Api.window (Api.world (Api.run env (Api.mkLoop w [] []) evs)) = Some b →
    Api.refreshing (Api.run env (Api.mkLoop w [] []) evs) !! i = Some rc →
    (∀ r tokens, reply = Api.Replied r →
          Api.validateStatus (Api.status r) = true →
          Api.data r = Some tokens →
          Api.authToken
            (Api.world
               (Api.step env (Api.run env (Api.mkLoop w [] []) evs)
                  (Api.RefreshSettled i reply)))
          = tokens !! "access_token"
          ∧ Api.getItem "refresh_token"
              (Api.world
                 (Api.step env (Api.run env (Api.mkLoop w [] []) evs)
                    (Api.RefreshSettled i reply)))
            = Some (Js.to_string (tokens !! "refresh_token")))
    ∧ (Api.accepted reply = false
       ∨ (∃ r, reply = Api.Replied r ∧ Api.data r = None) →
       Api.signed_out
         (Api.world
            (Api.step env (Api.run env (Api.mkLoop w [] []) evs)
               (Api.RefreshSettled i reply)))).
Proof.
  intros env w evs i rc reply b.
  pose proof (run_refreshing_skipAuth env evs (Api.mkLoop w [] [])
                (Forall_nil_2 _)) as Hall.
  set (l := Api.run env (Api.mkLoop w [] []) evs) in *. clearbody l.
  intros Hw Hi.
  assert (Api.skipAuth rc = true) as Hskip.
  { rewrite Forall_lookup in Hall. by apply (Hall i). }
  cbn [Api.step]. rewrite Hi. split.
  - intros r tokens -> Hok Hbody. unfold Api.settle. rewrite Hok.
    cbn [Api.handleTokenExpiration_resume]. rewrite Hbody. cbn [Api.world].
    unfold Api.getItem, Api.saveAuthToken, Api.with_storage,
      Api.with_authToken.
    cbn [Api.window Api.authToken Api.toasts Api.sent]. rewrite Hw.
    cbn [Api.localStorage]. by rewrite lookup_insert_eq.
  - intros Hfail.
    assert (∃ w1 r1, Api.settle Api.unreachable_handler (Api.world l) rc
                       reply = (w1, r1)
                     ∧ Api.window w1 = Some b
                     ∧ Api.handleTokenExpiration_resume w1 r1
                       = Api.session_expired w1)
      as (w1 & r1 & -> & Hw1 & ->).
    { destruct (Api.accepted reply) eqn:Hacc.
      - destruct Hfail as [|(r & -> & Hnull)]; [done|].
        unfold Api.settle. cbn [Api.accepted] in Hacc. rewrite Hacc.
        eexists _, _. split; [reflexivity|]. split; [done|].
        cbn [Api.handleTokenExpiration_resume]. by rewrite Hnull.
      - destruct (settle_frame Api.unreachable_handler (Api.world l) rc
                    reply Hskip Hacc) as (ts & e & ->).
        eexists _, _. split; [reflexivity|]. by split. }
    destruct (session_expired_browser w1 b Hw1) as (w' & -> & Hout & _).
    done.
Qed.

Lemma last_refresh_reply_wins_witness :
  Api.signed_out
    (Api.world
       (Api.step Scenario.renewing
          (Api.run Scenario.renewing (Api.mkLoop Scenario.signed_in [] [])
             [Api.Failed Scenario.list_documents (Some Scenario.expired);
              Api.Failed Scenario.list_documents (Some Scenario.expired);
              Api.RefreshSettled 0
                (Api.Replied
                   (Api.mkResponse 200 (Some Scenario.fresh_tokens)))])
          (Api.RefreshSettled 0 (Api.Replied Scenario.expired)))).
Proof.
  eapply (last_refresh_reply_wins Scenario.renewing Scenario.signed_in
            [Api.Failed Scenario.list_documents (Some Scenario.expired);
             Api.Failed Scenario.list_documents (Some Scenario.expired);
             Api.RefreshSettled 0
               (Api.Replied (Api.mkResponse 200 (Some Scenario.fresh_tokens)))]
            0%nat);
    [reflexivity | reflexivity | left; reflexivity].
Defined.

(** ** More on the auth store *)

Section LogoutFacts.
Import Js Api AuthStore.

Lemma logout_world w s :
  authToken (logout w s).1 = None
  ∧ getItem "access_token" (logout w s).1 = None
  ∧ getItem "refresh_token" (logout w s).1 = None
  ∧ sent (logout w s).1 = sent w
  ∧ toasts (logout w s).1 = toasts w.
Proof.
  unfold logout, clearAuth, clearAuthToken, getItem, with_storage,
    with_authToken. cbn [fst authToken window sent toasts].
  destruct (window w) as [b|]; cbn [localStorage]; [|done].
  split; [done|]. split; [|split; [|done]].
  - rewrite !lookup_delete_ne by done. apply lookup_delete_eq.
  - apply lookup_delete_eq.
Qed.

Lemma logout_store w s :
  (logout w s).2 = mkAuthState None None false false None.
Proof. done. Qed.


End LogoutFacts.


(** X14. [checkAuth] with no token in the store sends nothing and marks the
    store unauthenticated. With a token it asks for the user: a reply with
    a status from 200 to 299 makes the store authenticated with that user
    and the same token; any other outcome, a network failure included,
    ends in [logout], which removes the tokens and resets the store. *)
Theorem checkAuth_outcomes :
  ∀ (env : Api.Env) (w : Api.World) (s : AuthStore.AuthState),
    (Js.truthy (AuthStore.token s) = false →
     (AuthStore.checkAuth env w s).1 = w
     ∧ AuthStore.isAuthenticated (AuthStore.checkAuth env w s).2 = false
     ∧ AuthStore.user (AuthStore.checkAuth env w s).2 = None)
    ∧ (Js.truthy (AuthStore.token s) = true →
       ∀ r,
         Api.server env (length (Api.sent w))
           (Api.dispatch env w
              (Api.merge_config "get" "/api/v1/auth/me" ∅ Api.no_config)).2
         = Api.Replied r →
         Api.validateStatus (Api.status r) = true →
         AuthStore.checkAuth env w s
         = ((Api.dispatch env w
               (Api.merge_config "get" "/api/v1/auth/me" ∅
                  Api.no_config)).1,
            AuthStore.mkAuthState (Api.data r) (AuthStore.token s)
              true false None))
    ∧ (Js.truthy (AuthStore.token s) = true →
       Api.accepted
         (Api.server env (length (Api.sent w))
            (Api.dispatch env w
               (Api.merge_config "get" "/api/v1/auth/me" ∅
                  Api.no_config)).2) = false →
       Api.authToken (AuthStore.checkAuth env w s).1 = None
       ∧ Api.getItem "access_token" (AuthStore.checkAuth env w s).1 = None
       ∧ Api.getItem "refresh_token" (AuthStore.checkAuth env w s).1 = None
       ∧ (AuthStore.checkAuth env w s).2
         = AuthStore.mkAuthState None None false false None).
Proof.
  intros env w s. unfold AuthStore.checkAuth. split; [|split].
  - intros Hno. by rewrite Hno.
  - intros Htok r Hreply Hok. rewrite Htok. cbn [negb].
    by rewrite (get_accepted env w "/api/v1/auth/me" Api.no_config r).
  - intros Htok Hrej. rewrite Htok. cbn [negb].
    destruct (get_rejected env w "/api/v1/auth/me" Api.no_config Hrej)
      as [e He].
    destruct (Api.get env w "/api/v1/auth/me" Api.no_config) as [w1 res].
    cbn [snd] in He. subst res.
    destruct (logout_world w1
                (AuthStore.set
                   (AuthStore.mkPatch None None None (Some true) None) s))
      as (H1 & H2 & H3 & _).
    by rewrite logout_store.
Qed.

Lemma checkAuth_outcomes_witness :
  (AuthStore.checkAuth (Api.mkEnv (λ _ _, Api.NoReply) Scenario.clock)
     Scenario.signed_in Scenario.authenticated).2
  = AuthStore.mkAuthState None None false false None.
Proof.
  apply (checkAuth_outcomes (Api.mkEnv (λ _ _, Api.NoReply) Scenario.clock)
           Scenario.signed_in Scenario.authenticated);
    reflexivity.
Defined.

Section LoginFacts.
Import Js Api AuthStore.

Lemma post_accepted env w u b config r :
  server env (length (sent w))
    (dispatch env w (merge_config "post" u b config)).2 = Replied r →
  validateStatus (status r) = true →
  post env w u b config
  = ((dispatch env w (merge_config "post" u b config)).1,
     Returned (data r)).
Proof.
  intros Hreply Hok. unfold post, request, request_with.
  cbn [dispatch fst snd] in *. rewrite Hreply. unfold settle.
  by rewrite Hok.
Qed.

Lemma login_throws_store env w s credentials w' s' e :
  login env w s credentials = (w', s', Some e) →
  s' = mkAuthState None None false false (Some (errorMessage e)).
Proof.
  unfold login.
  destruct (post env w _ _ _) as [w1 [[tokenResponse|]|e1]].
  - destruct (get env _ _ _) as [w3 [u|e3]]; [done|].
    by intros [= <- <- <-].
  - by intros [= <- <- <-].
  - by intros [= <- <- <-].
Qed.

End LoginFacts.

(** X15. In a browser, a login whose credential exchange returns an object
    with a non-empty [access_token] and whose user-info fetch succeeds sends
    exactly those
    two requests, the second already carrying the new token; it leaves the
    store authenticated with that user and token, the same token in the
    client and in [localStorage], and the refresh token of the exchange in
    [localStorage]. *)
Theorem login_success_installs_token :
  ∀ (env : Api.Env) (w : Api.World) (b : Api.Browser)
    (s : AuthStore.AuthState) (credentials : AuthStore.UserLogin)
    (r1 r2 : Api.Response) (tokenResponse : Js.Json) (a : string),
    Api.window w = Some b →
    Api.server env (length (Api.sent w))
      (Api.dispatch env w
         (Api.merge_config "post" "/api/v1/auth/login"
            (<["password" := AuthStore.password credentials]>
               {[ "username" := AuthStore.username credentials ]})
            AuthStore.form_config)).2 = Api.Replied r1 →
    Api.validateStatus (Api.status r1) = true →
    Api.data r1 = Some tokenResponse →
    tokenResponse !! "access_token" = Some a →
    a ≠ "" →
    (∀ c, Api.url c = "/api/v1/auth/me" →
          Api.server env (S (length (Api.sent w))) c = Api.Replied r2) →
    Api.validateStatus (Api.status r2) = true →
    ∃ w' c1 c2,
      AuthStore.login env w s credentials
      = (w', AuthStore.mkAuthState (Api.data r2) (Some a) true false None,
         None)
      ∧ Api.authToken w' = Some a
      ∧ Api.getItem "access_token" w' = Some a
      ∧ Api.getItem "refresh_token" w'
        = Some (Js.to_string (tokenResponse !! "refresh_token"))
      ∧ Api.sent w' = (Api.sent w ++ [c1; c2])%list
      ∧ Api.url c1 = "/api/v1/auth/login"
      ∧ Api.url c2 = "/api/v1/auth/me"
      ∧ Api.headers c2 !! "Authorization" = Some ("Bearer " +:+ a).
Proof.
  intros env w b s credentials r1 r2 tokenResponse a Hw Hreply1 Hok1 Hbody Ha
    Hne Hreply2 Hok2.
  unfold AuthStore.login. cbv zeta.
  rewrite (post_accepted env w _ _ _ r1 Hreply1 Hok1). rewrite Hbody, Ha.
  cbn [Api.dispatch fst snd] in *.
  set (c1 := Api.requestInterceptor w _ _) in *.
  set (w2 := Api.setAuthToken (Some a) (Api.record_sent c1 w)).
  assert (length (Api.sent w2) = S (length (Api.sent w))) as Hlen.
  { subst w2. unfold Api.setAuthToken, Api.saveAuthToken, Api.with_storage,
      Api.with_authToken, Api.record_sent. cbn [Api.sent].
    rewrite length_app. simpl. lia. }
  set (c2 := (Api.dispatch env w2
                (Api.merge_config "get" "/api/v1/auth/me" ∅
                   Api.no_config)).2).
  assert (Api.url c2 = "/api/v1/auth/me") as Hurl2.
  { subst c2. cbn [Api.dispatch snd]. by rewrite requestInterceptor_url. }
  rewrite (get_accepted env w2 "/api/v1/auth/me" Api.no_config r2);
    [|rewrite Hlen; by apply Hreply2 | done].
  exists (Api.with_storage
            (<["refresh_token" :=
                 Js.to_string (tokenResponse !! "refresh_token")]>)
            (Api.dispatch env w2
               (Api.merge_config "get" "/api/v1/auth/me" ∅
                  Api.no_config)).1), c1, c2.
  split; [done|].
  unfold Api.getItem, Api.with_storage. cbn [Api.dispatch fst].
  subst w2. unfold Api.setAuthToken, Api.saveAuthToken, Api.with_storage,
    Api.with_authToken, Api.record_sent.
  cbn [Api.authToken Api.window Api.sent Api.toasts]. rewrite Hw.
  cbn [Api.localStorage]. split; [done|]. split.
  { rewrite lookup_insert_ne by done. by rewrite lookup_insert_eq. }
  split; [by rewrite lookup_insert_eq|].
  split; [by rewrite <- app_assoc|].
  split; [subst c1; by rewrite requestInterceptor_url|].
  split; [done|].
  subst c2. cbn [Api.dispatch snd].
  rewrite requestInterceptor_authorization.
  unfold Api.setAuthToken, Api.saveAuthToken, Api.with_storage,
    Api.with_authToken. cbn [Api.authToken].
  apply truthy_Some in Hne. by rewrite Hne.
Qed.

Lemma login_success_installs_token_witness :
  (AuthStore.login
     (Api.mkEnv
        (λ n _, if n is O
                then Api.Replied
                       (Api.mkResponse 200 (Some Scenario.fresh_tokens))
                else Api.Replied
                       (Api.mkResponse 200
                          (Some {[ "username" := "alice" ]})))
        Scenario.clock)
     Scenario.signed_in AuthStore.initial Scenario.alice).1.2
  = AuthStore.mkAuthState (Some {[ "username" := "alice" ]}) (Some "a2")
      true false None.
Proof.
  destruct (login_success_installs_token
              (Api.mkEnv
                 (λ n _, if n is O
                         then Api.Replied
                                (Api.mkResponse 200
                                   (Some Scenario.fresh_tokens))
                         else Api.Replied
                                (Api.mkResponse 200
                                   (Some {[ "username" := "alice" ]})))
                 Scenario.clock)
              Scenario.signed_in Scenario.signed_in_browser
              AuthStore.initial Scenario.alice
              (Api.mkResponse 200 (Some Scenario.fresh_tokens))
              (Api.mkResponse 200 (Some {[ "username" := "alice" ]}))
              Scenario.fresh_tokens "a2")
    as (w' & c1 & c2 & -> & _);
    [reflexivity | reflexivity | reflexivity | reflexivity | reflexivity
    | discriminate | reflexivity | reflexivity | reflexivity].
Defined.

(** X16. When [register] throws, the store is no longer loading and its
    error is the detail of the thrown error's response, or [Registration
    failed] when it has none. If the registration request itself failed,
    the session in the store is as it was; if the registration went through
    and the login after it failed, the store is signed out, and still
    reports [Registration failed] for an error without detail. *)
Theorem register_failure_modes :
  ∀ (env : Api.Env) (w w' : Api.World) (s s' : AuthStore.AuthState)
    (userData : AuthStore.UserCreate) (e : Api.Error),
    AuthStore.register env w s userData = (w', s', Some e) →
    AuthStore.isLoading s' = false
    ∧ AuthStore.error s'
      = Some (Js.or_else (AuthStore.response_detail e)
                "Registration failed")
    ∧ (((Api.post env w "/api/v1/auth/register"
           (AuthStore.userData_json userData) Api.no_config).2 = Api.Threw e
        ∧ AuthStore.user s' = AuthStore.user s
        ∧ AuthStore.token s' = AuthStore.token s
        ∧ AuthStore.isAuthenticated s' = AuthStore.isAuthenticated s)
       ∨ ((∃ d, (Api.post env w "/api/v1/auth/register"
                   (AuthStore.userData_json userData) Api.no_config).2
                = Api.Returned d)
          ∧ AuthStore.user s' = None
          ∧ AuthStore.token s' = None
          ∧ AuthStore.isAuthenticated s' = false)).
Proof.
  intros env w w' s s' userData e. unfold AuthStore.register. cbv zeta.
  destruct (Api.post env w _ _ _) as [w1 [d|e1]].
  - destruct (AuthStore.login env w1 _ _) as [[w2 s2] [e2|]] eqn:Hlogin;
      [|done].
    intros [= <- <- <-]. apply login_throws_store in Hlogin as ->.
    split; [done|]. split; [done|]. right. eauto.
  - intros [= <- <- <-]. split; [done|]. split; [done|]. by left.
Qed.

Lemma register_failure_modes_witness :
  AuthStore.error
    (AuthStore.register Scenario.refusing Scenario.signed_in
       Scenario.authenticated
       (AuthStore.mkUserCreate "alice" "alice@example.org" "Alice"
          "Passw0rd" None None None)).1.2
  = Some "Inactive user"
  ∧ AuthStore.isAuthenticated
      (AuthStore.register Scenario.refusing Scenario.signed_in
         Scenario.authenticated
         (AuthStore.mkUserCreate "alice" "alice@example.org" "Alice"
            "Passw0rd" None None None)).1.2
    = true.
Proof.
  destruct (AuthStore.register Scenario.refusing Scenario.signed_in
              Scenario.authenticated
              (AuthStore.mkUserCreate "alice" "alice@example.org" "Alice"
                 "Passw0rd" None None None))
    as [[w' s'] thrown] eqn:Hrun.
  destruct thrown as [e|]; [|vm_compute in Hrun; discriminate].
  destruct (register_failure_modes Scenario.refusing Scenario.signed_in w'
              Scenario.authenticated s' _ e Hrun) as (_ & He & _).
  cbn [fst snd]. split.
  - rewrite He. vm_compute in Hrun. injection Hrun as _ _ <-. reflexivity.
  - vm_compute in Hrun. injection Hrun as _ <- _. reflexivity.
Defined.

(** ** More on the tables *)

Section QueriesTableFacts.
Import Schema.

Lemma referenced_iff (t : gmap Z Row) i :
  referenced t i = true
  ↔ ∃ j r, t !! j = Some r ∧ j ≠ i ∧ parent_query_id r = Some i.
Proof.
  unfold referenced. rewrite bool_decide_eq_true.
  unfold map_Exists. naive_solver.
Qed.

Lemma row_accepted_parent t r p :
  row_accepted t r = true → parent_query_id r = Some p →
  is_Some (<[id r := r]> t !! p).
Proof.
  unfold row_accepted, parent_exists. rewrite !andb_true_iff.
  intros [_ Hp] Hr. rewrite Hr in Hp. by apply bool_decide_eq_true in Hp.
Qed.

Lemma execute_keys t s : keys_match t → keys_match (execute t s).
Proof.
  intros Ht. destruct s as [r | i f | i]; cbn [execute].
  - destruct (t !! id r); [done|]. destruct (row_accepted t r); [|done].
    intros j r' Hj. apply lookup_insert_Some in Hj as [[<- <-] | [_ Hj]];
      [done | by apply Ht].
  - destruct (t !! i) as [r|]; [|done]. cbv zeta.
    destruct (_ && _); [|done].
    intros j r' Hj. apply lookup_insert_Some in Hj as [[<- <-] | [_ Hj]];
      [done|]. apply lookup_delete_Some in Hj as [_ Hj]. by apply Ht.
  - destruct (referenced t i); [done|].
    intros j r Hj. apply lookup_delete_Some in Hj as [_ Hj]. by apply Ht.
Qed.

Lemma execute_parents t s : parents_exist t → parents_exist (execute t s).
Proof.
  intros Ht. destruct s as [r | i f | i]; cbn [execute].
  - destruct (t !! id r) eqn:Hfree; [done|].
    destruct (row_accepted t r) eqn:Hacc; [|done].
    intros j r' p Hj Hp.
    apply lookup_insert_Some in Hj as [[<- <-] | [Hne Hj]].
    + by eapply row_accepted_parent.
    + destruct (Ht j r' p Hj Hp) as [q Hq].
      destruct (decide (id r = p)) as [<-|Hnp]; [congruence|].
      rewrite lookup_insert_ne by done. eauto.
  - destruct (t !! i) as [r|] eqn:Hi; [|done]. cbv zeta.
    destruct (_ && row_accepted _ _) eqn:Hcond; [|done].
    apply andb_true_iff in Hcond as [Hkey Hacc].
    intros j r' p Hj Hp.
    apply lookup_insert_Some in Hj as [[<- <-] | [Hne Hj]].
    + by eapply row_accepted_parent.
    + apply lookup_delete_Some in Hj as [Hji Hj].
      destruct (decide (id (f r) = p)) as [<-|Hnp];
        [rewrite lookup_insert_eq; eauto|].
      rewrite lookup_insert_ne by done.
      destruct (decide (i = p)) as [<-|Hip].
      * apply orb_true_iff in Hkey as [Hsame | Hmoved].
        { apply bool_decide_eq_true in Hsame. congruence. }
        apply andb_true_iff in Hmoved as [_ Hnot].
        apply negb_true_iff in Hnot.
        assert (referenced t i = true); [|congruence].
        apply referenced_iff. eauto.
      * rewrite lookup_delete_ne by done. by eapply Ht.
  - destruct (referenced t i) eqn:Href; [done|].
    intros j r p Hj Hp. apply lookup_delete_Some in Hj as [Hji Hj].
    destruct (decide (i = p)) as [<-|Hip].
    + assert (referenced t i = true); [|congruence].
      apply referenced_iff. eauto.
    + rewrite lookup_delete_ne by done. by eapply Ht.
Qed.

End QueriesTableFacts.

(** X17. Whatever statements are run against the [queries] table, starting
    from the empty table, every row is stored under its own [id] and every
    [parent_query_id] names a row that is in the table: a query that has
    follow-ups cannot be deleted or renumbered away from under them. *)
Theorem parents_stay_in_the_table :
  ∀ (statements : list Schema.Statement),
    Schema.keys_match (Schema.execute_all ∅ statements)
    ∧ Schema.parents_exist (Schema.execute_all ∅ statements)
    ∧ ∀ i j r,
        Schema.execute_all ∅ statements !! j = Some r →
        j ≠ i →
        Schema.parent_query_id r = Some i →
        Schema.execute (Schema.execute_all ∅ statements) (Schema.Delete i)
        = Schema.execute_all ∅ statements.
Proof.
  intros statements. unfold Schema.execute_all.
  assert (Schema.keys_match (∅ : gmap Z Schema.Row)
          ∧ Schema.parents_exist (∅ : gmap Z Schema.Row)) as H0.
  { split; [intros i r Hi | intros i r p Hi]; by rewrite lookup_empty in Hi. }
  revert H0. generalize (∅ : gmap Z Schema.Row).
  induction statements as [|s ss IH]; intros t [Hk Hp].
  - split; [done|]. split; [done|]. intros i j r Hj Hne Hpar.
    cbn [fold_left Schema.execute].
    replace (Schema.referenced t i) with true; [done|].
    symmetry. apply referenced_iff. eauto.
  - cbn [fold_left]. apply IH. split.
    + by apply execute_keys.
    + by apply execute_parents.
Qed.

Section DocumentsTableFacts.
Import Documents.

Lemma reference_free_spec (t : gmap Z Row) r x j r' :
  reference_free t r = true →
  notebooklm_document_id r = Some x →
  t !! j = Some r' →
  notebooklm_document_id r' ≠ Some x.
Proof.
  unfold reference_free. intros Hfree Hx Hj. rewrite Hx in Hfree.
  apply bool_decide_eq_true in Hfree. by apply (Hfree j r').
Qed.

Lemma insert_references_unique (t : gmap Z Row) r :
  references_unique t →
  reference_free t r = true →
  references_unique (<[id r := r]> t).
Proof.
  intros Ht Hfree i j r1 r2 x Hi Hj H1 H2.
  apply lookup_insert_Some in Hi as [[<- <-] | [Hni Hi]];
    apply lookup_insert_Some in Hj as [[<- <-] | [Hnj Hj]]; try done.
  - by destruct (reference_free_spec t r x j r2).
  - by destruct (reference_free_spec t r x i r1).
  - by eapply Ht.
Qed.

Lemma delete_references_unique (t : gmap Z Row) i :
  references_unique t → references_unique (delete i t).
Proof.
  intros Ht j k r1 r2 x Hj Hk. apply lookup_delete_Some in Hj as [_ Hj].
  apply lookup_delete_Some in Hk as [_ Hk]. by eapply Ht.
Qed.

Lemma execute_references_unique t s :
  references_unique t → references_unique (execute t s).
Proof.
  intros Ht. destruct s as [r | i f | i]; cbn [execute].
  - destruct (t !! id r); [done|].
    destruct (row_accepted t r) eqn:Hacc; [|done].
    apply insert_references_unique; [done|].
    unfold row_accepted in Hacc. by apply andb_true_iff in Hacc as [_ ?].
  - destruct (t !! i) as [r|]; [|done]. cbv zeta.
    destruct (_ && row_accepted _ _) eqn:Hcond; [|done].
    apply andb_true_iff in Hcond as [_ Hacc].
    apply insert_references_unique;
      [by apply delete_references_unique|].
    unfold row_accepted in Hacc. by apply andb_true_iff in Hacc as [_ ?].
  - by apply delete_references_unique.
Qed.

End DocumentsTableFacts.

(** X18. Whatever statements are run against the [documents] table,
    starting from the empty table, no two rows have the same
    [notebooklm_document_id]. *)
Theorem external_references_are_unique :
  ∀ (statements : list Documents.Statement),
    Documents.references_unique (Documents.execute_all ∅ statements).
Proof.
  intros statements. unfold Documents.execute_all.
  assert (Documents.references_unique (∅ : gmap Z Documents.Row)) as H0.
  { intros i j r r' x Hi. by rewrite lookup_empty in Hi. }
  revert H0. generalize (∅ : gmap Z Documents.Row).
  induction statements as [|s ss IH]; intros t Ht; [done|].
  cbn [fold_left]. apply IH. by apply execute_references_unique.
Qed.
